(** * UniBridge: the legacy flat-file adapter ([legacy_parser.py]) and the two
      HTTP endpoints of [app.py] that drive it.

    Python strings are modelled as lists of characters ([list ascii], code
    points below 256).  The backing store is the text that Python's text-mode
    file layer delivers to and accepts from the program: universal-newline
    translation happens below this model, so a line ends with LF.  The
    printing done by [read] on a missing file is not modelled. *)

From Stdlib Require Import ZArith Ascii String DecimalString Lia.
From stdpp Require Import base list strings.

Open Scope Z_scope.

(** ** Python strings *)

Definition str := list ascii.

Coercion list_ascii_of_string : string >-> list.

Module Py.

(** [str.isspace] on one character, for code points below 256. *)
Definition isspace (c : ascii) : bool :=
  let n := N_of_ascii c in
  ((9 <=? n) && (n <=? 13) || (28 <=? n) && (n <=? 32)
   || (n =? 133) || (n =? 160))%N.

(** Truth value of a string: [if s:]. *)
Definition truthy (s : str) : bool :=
  match s with [] => false | _ :: _ => true end.

Fixpoint lstrip (s : str) : str :=
  match s with
  | [] => []
  | c :: s' => if isspace c then lstrip s' else s
  end.

Definition rstrip (s : str) : str := rev (lstrip (rev s)).

(** [s.strip()] *)
Definition strip (s : str) : str := rstrip (lstrip s).

(** [s.startswith(p)] *)
Fixpoint startswith (p s : str) : bool :=
  match p, s with
  | [], _ => true
  | _ :: _, [] => false
  | a :: p', b :: s' => Ascii.eqb a b && startswith p' s'
  end.

(** [s.split(sep)] for a one-character separator. *)
Fixpoint split (sep : ascii) (s : str) : list str :=
  match s with
  | [] => [[]]
  | c :: s' =>
      if Ascii.eqb c sep then [] :: split sep s'
      else match split sep s' with
           | [] => [[c]]
           | p :: ps => (c :: p) :: ps
           end
  end.

(** [s.split(sep, 1)] *)
Fixpoint split_once (sep : ascii) (s : str) : list str :=
  match s with
  | [] => [[]]
  | c :: s' =>
      if Ascii.eqb c sep then [[]; s']
      else match split_once sep s' with
           | [] => [[c]]
           | p :: ps => (c :: p) :: ps
           end
  end.

(** [sep.join(l)] *)
Fixpoint join (sep : ascii) (l : list str) : str :=
  match l with
  | [] => []
  | [x] => x
  | x :: l' => x ++ sep :: join sep l'
  end.

(** [s.lower()], on the letters A-Z. *)
Definition lower_char (c : ascii) : ascii :=
  let n := N_of_ascii c in
  if ((65 <=? n) && (n <=? 90))%N then ascii_of_N (n + 32) else c.

Definition lower (s : str) : str := map lower_char s.

Definition str_eqb (a b : str) : bool := bool_decide (a = b).

(** Exceptions that the modelled code can raise. *)
Inductive exn :=
| ValueError (msg : str)
| IndexError
| FileNotFoundError.

Inductive result (A : Type) :=
| Ok (a : A)
| Raise (e : exn).
Arguments Ok {A} a.
Arguments Raise {A} e.

Definition bind {A B} (r : result A) (k : A -> result B) : result B :=
  match r with
  | Ok a => k a
  | Raise e => Raise e
  end.

(** Position in the list that the Python index [i] denotes: negative
    indices count from the end; [None] is an [IndexError]. *)
Definition index {A} (l : list A) (i : Z) : option nat :=
  let n := Z.of_nat (length l) in
  if (0 <=? i) && (i <? n) then Some (Z.to_nat i)
  else if (- n <=? i) && (i <? 0) then Some (Z.to_nat (i + n))
  else None.

(** [l[i]] *)
Definition getitem {A} (l : list A) (i : Z) : result A :=
  match index l i with
  | Some j => match l !! j with Some x => Ok x | None => Raise IndexError end
  | None => Raise IndexError
  end.

(** [l[i] = x] *)
Definition setitem {A} (l : list A) (i : Z) (x : A) : result (list A) :=
  match index l i with
  | Some j => Ok (<[j:=x]> l)
  | None => Raise IndexError
  end.

(** Decimal digits of [int(s)]: digits, single underscores between them. *)
Definition digit (c : ascii) : option Z :=
  let n := N_of_ascii c in
  if ((48 <=? n) && (n <=? 57))%N then Some (Z.of_N (n - 48)) else None.

Fixpoint digits (acc : Z) (after_digit : bool) (s : str) : option Z :=
  match s with
  | [] => if after_digit then Some acc else None
  | c :: s' =>
      match digit c with
      | Some d => digits (10 * acc + d) true s'
      | None =>
          if Ascii.eqb c "_" && after_digit then digits acc false s'
          else None
      end
  end.

(** The blanks that [int] skips around a number: the ASCII ones (tab to
    carriage return, and space) and, once the string is transcoded, the two
    blanks above 127.  The separators 28 to 31, which [strip] removes, are
    not among them: [int] raises on a key that holds one. *)
Definition int_space (c : ascii) : bool :=
  let n := N_of_ascii c in
  ((9 <=? n) && (n <=? 13) || (n =? 32) || (n =? 133) || (n =? 160))%N.

Fixpoint int_skip (s : str) : str :=
  match s with
  | [] => []
  | c :: s' => if int_space c then int_skip s' else s
  end.

Definition int_strip (s : str) : str := rev (int_skip (rev (int_skip s))).

(** [int(s)] for a string [s]; [None] is a [ValueError].  The
    interpreter's configurable limit on the number of digits is not
    modelled. *)
Definition int (s : str) : option Z :=
  match int_strip s with
  | [] => None
  | c :: s' =>
      if Ascii.eqb c "-" then Z.opp <$> digits 0 false s'
      else if Ascii.eqb c "+" then digits 0 false s'
      else digits 0 false (c :: s')
  end.

(** [str(z)] for an integer. *)
Definition str_of_int (z : Z) : str :=
  list_ascii_of_string (NilZero.string_of_int (Z.to_int z)).

End Py.

Import Py.

#[global] Instance result_bind : MBind result := fun A B k r => bind r k.
#[global] Instance result_ret : MRet result := fun A a => Ok a.

(** ** The record model: [class PickRecord] *)

Definition AM : ascii := "^".
Definition VM : ascii := "]".
Definition SM : ascii := "\".
Definition LF : ascii := "010".
Definition CR : ascii := "013".

(** The file at [DATA_FILE] and its sibling [DATA_FILE + '.bak']; [None] is a
    file that does not exist. *)
Record FS := mkFS {
  data_file : option str;
  bak_file : option str
}.

Record PickRecord := mkRecord {
  record_key : option str;
  raw_data : option str;
  attributes : list str
}.

(** [if raw_data:] is false for [None] and for the empty string. *)
Definition present (raw : option str) : bool :=
  match raw with
  | Some s => truthy s
  | None => false
  end.

(** [PickRecord.__init__] *)
Definition init (record_key raw_data : option str) : PickRecord :=
  {| record_key := record_key;
     raw_data := raw_data;
     attributes :=
       match raw_data with
       | Some raw => if truthy raw then split AM raw else []
       | None => []
       end |}.

(** [f.readlines()] and [for line in f]: every line keeps its LF.  The text
    is the one that Python delivers, after universal-newline translation;
    text that was written is delivered back as written only when it holds no
    CR, which the statements about a store read after an [update] ask of the
    values written. *)
Fixpoint readlines (s : str) : list str :=
  match s with
  | [] => []
  | c :: s' =>
      if Ascii.eqb c LF then [LF] :: readlines s'
      else match readlines s' with
           | [] => [[c]]
           | l :: ls => (c :: l) :: ls
           end
  end.

(** The loop of [read] over the lines of the file. *)
Fixpoint read_lines (key : str) (lines : list str) : result PickRecord :=
  match lines with
  | [] => Ok (init (Some key) None)
  | line :: rest =>
      let line := strip line in
      if truthy line && startswith (key ++ [AM]) line then
        raw_attributes ← getitem (split_once AM line) 1;
        Ok (init (Some key) (Some raw_attributes))
      else read_lines key rest
  end.

(** [PickRecord.read] *)
Definition read (fs : FS) (key : str) : result PickRecord :=
  match data_file fs with
  | Some content => read_lines key (readlines content)
  | None => Ok (init (Some key) None)
  end.

(** [if value_pos:] is false for [None] and for [0]. *)
Definition given (pos : option Z) : option Z :=
  match pos with
  | Some p => if p =? 0 then None else Some p
  | None => None
  end.

Definition in_range {A} (i : Z) (l : list A) : bool :=
  (0 <=? i) && (i <? Z.of_nat (length l)).

(** [PickRecord.extract]; the [None] branches of the lookups are the
    [except Exception] handler. *)
Definition extract (r : PickRecord) (attribute_pos : Z)
    (value_pos subvalue_pos : option Z) : str :=
  let attr_index := attribute_pos - 1 in
  if in_range attr_index (attributes r) then
    match attributes r !! Z.to_nat attr_index with
    | None => []
    | Some attr =>
        if negb (truthy attr) then []
        else
          match given value_pos with
          | None => attr
          | Some value_pos =>
              let values := split VM attr in
              let value_index := value_pos - 1 in
              if in_range value_index values then
                match values !! Z.to_nat value_index with
                | None => []
                | Some val =>
                    match given subvalue_pos with
                    | None => val
                    | Some subvalue_pos =>
                        let svs := split SM val in
                        let sindex := subvalue_pos - 1 in
                        if in_range sindex svs then
                          default [] (svs !! Z.to_nat sindex)
                        else []
                    end
                end
              else []
          end
    end
  else [].

(** ** Values of [decimal.Decimal] and [datetime.date]

    Both come from Python's library, not from this repository.  The
    projection only constructs them from strings and prints them back, so
    they are taken as an interface; [None] is the exception that the
    constructor raises ([InvalidOperation], [ValueError]). *)
Class Coercions := {
  Decimal : Type;
  date : Type;
  Decimal_of_str : str -> option Decimal;
  str_of_Decimal : Decimal -> str;
  strptime_date : str -> option date;
  str_of_date : date -> str
}.

(** An interpreter in which no string is a number or a date. *)
Definition no_coercions : Coercions :=
  {| Decimal := Empty_set;
     date := Empty_set;
     Decimal_of_str := fun _ => None;
     str_of_Decimal := fun d => match d with end;
     strptime_date := fun _ => None;
     str_of_date := fun d => match d with end |}.

Section Projection.

Context `{Coercions}.

(** The objects stored in [parsed_balances] and [parsed_dates]. *)
Inductive pyobj :=
| PStr (s : str)
| PDecimal (d : Decimal)
| PDate (d : date).

(** [str(x)], where [None] is Python's [None]. *)
Definition py_str (x : option pyobj) : str :=
  match x with
  | None => "None"%string
  | Some (PStr s) => s
  | Some (PDecimal d) => str_of_Decimal d
  | Some (PDate d) => str_of_date d
  end.

(** A dictionary with string keys, in insertion order. *)
Definition dict (V : Type) := list (string * V).

(** [d.get(k)] *)
Fixpoint dict_get {V} (d : dict V) (k : string) : option V :=
  match d with
  | [] => None
  | (k', v) :: d' => if String.eqb k' k then Some v else dict_get d' k
  end.

(** The dictionary returned by [to_json]. *)
Record Projection := mkProjection {
  client_id : option str;
  client_name : str;
  current_balance : option str;
  legacy_balances_history : list str;
  transaction_dates : list str;
  transactions : list (dict str);
  data_source : str
}.

(** [[x for x in (raw.split(VM) if raw else []) if x != '']] *)
Definition multivalues (raw : str) : list str :=
  filter (fun x => x ≠ []) (if truthy raw then split VM raw else []).

Definition parse_balance (parse_numbers : bool) (b : str) : pyobj :=
  if parse_numbers then
    match Decimal_of_str b with
    | Some d => PDecimal d
    | None => PStr b
    end
  else PStr b.

Definition parse_date (parse_dates : bool) (d : str) : pyobj :=
  if parse_dates then
    match strptime_date d with
    | Some x => PDate x
    | None => PStr d
    end
  else PStr d.

(** One pass of the pairing loop: the dictionary [tx] built for index [i]. *)
Definition make_tx (parsed_balances parsed_dates : list pyobj) (i : nat)
    : dict pyobj :=
  (if bool_decide (i < length parsed_balances)%nat then
     match parsed_balances !! i with
     | Some b => [("amount"%string, b)]
     | None => []
     end
   else [])
  ++
  (if bool_decide (i < length parsed_dates)%nat then
     match parsed_dates !! i with
     | Some d => [("date"%string, d)]
     | None => []
     end
   else []).

Definition pair_transactions (parsed_balances parsed_dates : list pyobj)
    : list (dict pyobj) :=
  let length := Nat.max (length parsed_balances) (length parsed_dates) in
  map (make_tx parsed_balances parsed_dates) (seq 0 length).

(** [{"amount": str(t.get('amount')), "date": str(t.get('date'))}] *)
Definition render_tx (t : dict pyobj) : dict str :=
  [("amount"%string, py_str (dict_get t "amount"));
   ("date"%string, py_str (dict_get t "date"))].

Definition select_balance (latest_balance : str) (parsed_balances : list pyobj)
    : option pyobj :=
  match parsed_balances with
  | [] => None
  | first :: _ =>
      if str_eqb latest_balance "first"%string then Some first
      else last parsed_balances
  end.

(** [PickRecord.to_json]; [None] is Python's [None]. *)
Definition to_json (r : PickRecord) (parse_numbers parse_dates : bool)
    (latest_balance : str) : option Projection :=
  if negb (present (raw_data r)) then None
  else
    let balances_raw := extract r 2 None None in
    let dates_raw := extract r 3 None None in
    let balances := multivalues balances_raw in
    let dates := multivalues dates_raw in
    let parsed_balances := map (parse_balance parse_numbers) balances in
    let parsed_dates := map (parse_date parse_dates) dates in
    let transactions := pair_transactions parsed_balances parsed_dates in
    let current_balance := select_balance latest_balance parsed_balances in
    Some {|
      client_id := record_key r;
      client_name := extract r 1 None None;
      current_balance :=
        match current_balance with
        | Some x => Some (py_str (Some x))
        | None => None
        end;
      legacy_balances_history := map (fun x => py_str (Some x)) parsed_balances;
      transaction_dates := map (fun x => py_str (Some x)) parsed_dates;
      transactions := map render_tx transactions;
      data_source := "Simulated Universe/Pick Flat File"%string
    |}.

End Projection.

(** ** [PickRecord.update] *)

(** The values of an attribute map: a scalar, or a list of scalars. *)
Inductive scalar :=
| SStr (s : str)
| SInt (z : Z)
| SBool (b : bool)
| SNone.

Inductive value :=
| Scalar (x : scalar)
| Seq (xs : list scalar).

(** [str(x)] *)
Definition str_of_scalar (x : scalar) : str :=
  match x with
  | SStr s => s
  | SInt z => str_of_int z
  | SBool true => "True"%string
  | SBool false => "False"%string
  | SNone => "None"%string
  end.

(** What [update] stores for a value: [VM.join([str(x) for x in v])] for a
    list, [str(v)] otherwise. *)
Definition render (v : value) : str :=
  match v with
  | Seq xs => join VM (map str_of_scalar xs)
  | Scalar x => str_of_scalar x
  end.

(** A dictionary with integer keys, in insertion order. *)
Definition attribute_map := list (Z * value).

(** [max((k for k in attribute_map), default=0)] *)
Definition max_key (m : attribute_map) : Z :=
  match m with
  | [] => 0
  | (k, _) :: m' => fold_left Z.max (map fst m') k
  end.

(** The loop [for k, v in attribute_map.items(): attrs[k - 1] = ...]. *)
Fixpoint assign (attrs : list str) (m : attribute_map) : result (list str) :=
  match m with
  | [] => Ok attrs
  | (k, v) :: m' =>
      let idx := k - 1 in
      attrs' ← setitem attrs idx (render v);
      assign attrs' m'
  end.

Definition no_key_message : str := "No record_key available to update"%string.

(** New attribute list computed by [update], before any file is touched. *)
Definition new_attributes (r : PickRecord) (m : attribute_map)
    : result (list str) :=
  let attrs := attributes r in
  let max_index := max_key m in
  let attrs :=
    if max_index >? Z.of_nat (length attrs) then
      attrs ++ replicate (Z.to_nat (max_index - Z.of_nat (length attrs))) []
    else attrs in
  assign attrs m.

(** [line.strip().startswith(f"{key}{AM}")] *)
Definition key_line (key line : str) : bool :=
  startswith (key ++ [AM]) (strip line).

(** The rewriting loop of [update]. *)
Definition rewrite_lines (key updated_line : str) (lines : list str) : str :=
  concat (map (fun line => if key_line key line then updated_line else line)
              lines).

(** [PickRecord.update]: the new file system and the mutated record. *)
Definition update (fs : FS) (r : PickRecord) (m : attribute_map)
    : result (FS * PickRecord) :=
  match record_key r with
  | None => Raise (ValueError no_key_message)
  | Some key =>
      if negb (truthy key) then Raise (ValueError no_key_message)
      else
        attrs ← new_attributes r m;
        let new_raw := join AM attrs in
        match data_file fs with
        | None => Raise FileNotFoundError
        | Some content =>
            let bak := content in
            let updated_line := key ++ [AM] ++ new_raw ++ [LF] in
            let lines := readlines content in
            Ok ({| data_file := Some (rewrite_lines key updated_line lines);
                   bak_file := Some bak |},
                {| record_key := Some key;
                   raw_data := Some new_raw;
                   attributes := split AM new_raw |})
        end
  end.

(** ** The endpoints of [app.py] *)

Module App.

(** The query parameters read through [request.args.get], and the URL that
    [not_found] echoes. *)
Record request := mkRequest {
  url : str;
  arg_parse_numbers : option str;
  arg_parse_dates : option str;
  arg_latest : option str
}.

(** A JSON request body that is an object: its members in order, the keys
    being strings. *)
Definition json_object := list (str * value).

Section Endpoints.

Context `{Coercions}.

(** What is passed to [jsonify]. *)
Inductive body :=
| Json (p : option Projection)
| Message (message : str)
| Failure (message : str) (detail : exn)
| NotFound (message : str).

Definition response := (body * Z)%type.

(** [not_found] *)
Definition not_found (req : request) : response :=
  (NotFound ("Not found " ++ url req), 404).

(** [request.args.get(name, 'true').lower() != 'false'] *)
Definition flag (arg : option str) : bool :=
  negb (str_eqb (lower (default ("true" : str) arg)) "false"%string).

(** [get_legacy_client] *)
Definition get_legacy_client (fs : FS) (req : request) (client_id : str)
    : result response :=
  client_record ← read fs client_id;
  if present (raw_data client_record) then
    let parse_numbers := flag (arg_parse_numbers req) in
    let parse_dates := flag (arg_parse_dates req) in
    let latest := default ("last" : str) (arg_latest req) in
    let client_data :=
      to_json client_record parse_numbers parse_dates latest in
    Ok (Json client_data, 200)
  else Ok (not_found req).

(** [attr_map[pos] = v] on a dictionary kept in insertion order. *)
Fixpoint dict_set (m : attribute_map) (pos : Z) (v : value) : attribute_map :=
  match m with
  | [] => [(pos, v)]
  | (k, w) :: m' =>
      if k =? pos then (k, v) :: m' else (k, w) :: dict_set m' pos v
  end.

(** The validation loop: [inl k] is the key at which [int(k)] raised. *)
Fixpoint validate (attr_map : attribute_map) (data : json_object)
    : str + attribute_map :=
  match data with
  | [] => inr attr_map
  | (k, v) :: data' =>
      match int k with
      | Some pos => validate (dict_set attr_map pos v) data'
      | None => inl k
      end
  end.

Definition invalid_key_message (k : str) : str :=
  "Invalid attribute key: " ++ k ++ " (must be integer)".

(** [update_legacy_client]: the response and the file system after the
    request.  [data] is [request.json]; [None] is a missing body. *)
Definition update_legacy_client (fs : FS) (req : request) (client_id : str)
    (data : option json_object) : response * FS :=
  match data with
  | None | Some [] =>
      (Message "Missing JSON body with attribute mapping"%string, 400, fs)
  | Some data =>
      match read fs client_id with
      | Raise e => (Failure "Error updating legacy record"%string e, 500, fs)
      | Ok record =>
          if negb (present (raw_data record)) then (not_found req, fs)
          else
            match validate [] data with
            | inl k => (Message (invalid_key_message k), 400, fs)
            | inr attr_map =>
                match update fs record attr_map with
                | Ok (fs', _) =>
                    (Message "Legacy record updated successfully"%string,
                     200, fs')
                | Raise e =>
                    (Failure "Error updating legacy record"%string e, 500, fs)
                end
            end
      end
  end.

End Endpoints.

End App.

(** ** Sample data: the file of the repository's tests *)

Definition test_data : str :=
  ("101^John Doe^2500.00]400.00]12.50^2023-11-01]2023-12-01]2024-01-15" ++ [LF])
  ++ ("102^Jane Smith^150.00]800.00^2024-02-10]2024-03-15" ++ [LF])
  ++ ("103^Alex Chen^9800.00^^2024-04-20" ++ [LF])
  ++ ("104^Lisa Wong^100.00]50.00^2024-05-01]2024-05-15]2024-06-01]2024-06-15"
      ++ [LF]).

Definition test_fs : FS := {| data_file := Some test_data; bak_file := None |}.

(** A store in which the key 7 heads two lines. *)
Definition duplicate_data : str :=
  ("7^a" ++ [LF]) ++ ("7^b" ++ [LF]).

Definition duplicate_fs : FS :=
  {| data_file := Some duplicate_data; bak_file := None |}.

(** A store whose record 105 has a key and nothing else. *)
Definition bare_fs : FS :=
  {| data_file := Some ("105^" ++ [LF]); bak_file := None |}.

Definition found (fs : FS) (key : str) : PickRecord :=
  match read fs key with
  | Ok r => r
  | Raise _ => init (Some key) None
  end.

(** ** Specification-side notions *)

(** The element at a 1-based position, when there is one. *)
Definition at_pos {A} (l : list A) (pos : Z) : option A :=
  if 1 <=? pos then l !! Z.to_nat (pos - 1) else None.

(** A position that selects nothing: not positive, or past the end. *)
Definition out_of_range {A} (pos : Z) (l : list A) : Prop :=
  pos <= 0 ∨ Z.of_nat (length l) < pos.

(** The rewrite as the specification words it: only the first line of the
    key is replaced. *)
Fixpoint rewrite_first_match (key updated_line : str) (lines : list str)
    : list str :=
  match lines with
  | [] => []
  | line :: rest =>
      if key_line key line then updated_line :: rest
      else line :: rewrite_first_match key updated_line rest
  end.

(** A line as [readlines] yields it: text without LF, then LF. *)
Definition terminated (line : str) : Prop :=
  ∃ b : str, line = b ++ [LF] ∧ LF ∉ b.

(** The lines of a text: all terminated, except that the last one may be a
    non-empty remainder without LF. *)
Fixpoint text_lines (lines : list str) : Prop :=
  match lines with
  | [] => True
  | [l] => terminated l ∨ (l ≠ [] ∧ LF ∉ l)
  | l :: ls => terminated l ∧ text_lines ls
  end.

(** A string that can be written into one attribute of one line. *)
Definition attribute_safe (s : str) : Prop :=
  (AM ∉ s) ∧ (LF ∉ s) ∧ (CR ∉ s).

(** No whitespace at the front. *)
Definition starts_clean (s : str) : Prop :=
  match s with
  | [] => True
  | c :: _ => isspace c = false
  end.

(** The record that [read] returns when nothing is found. *)
Definition not_found_record (key : str) : PickRecord :=
  {| record_key := Some key; raw_data := None; attributes := [] |}.

(** A dynamic array written with the three marks: attributes of values of
    subvalues. *)
Definition encode_value (subvalues : list str) : str := join SM subvalues.

Definition encode_attribute (values : list (list str)) : str :=
  join VM (map encode_value values).

Definition encode_record (attrs : list (list (list str))) : str :=
  join AM (map encode_attribute attrs).

(** A string without any of the three marks. *)
Definition mark_free (s : str) : Prop :=
  (AM ∉ s) ∧ (VM ∉ s) ∧ (SM ∉ s).

(** A dynamic array that the marks can carry: no level is an empty list
    and no subvalue holds a mark. *)
Definition well_formed_array (attrs : list (list (list str))) : Prop :=
  Forall
    (λ values,
       values ≠ []
       ∧ Forall (λ subvalues, subvalues ≠ [] ∧ Forall mark_free subvalues)
           values)
    attrs.

(** ** The document endpoints of [app.py]

    The document store and the values it holds come from the MongoDB
    driver, not from this repository: object ids, timestamps and the
    store itself are taken as an interface.  [strptime] is
    [datetime.strptime(s, "%Y-%m-%d")] on a string ([None] is its
    [ValueError]); [strftime] is [d.strftime("%Y-%m-%d %H:%M:%S")];
    [opaque] stands for the JSON values that are neither scalars nor
    inspected by the code (numbers with a fraction, arrays, objects). *)
Class Bson := {
  ObjectId : Type;
  datetime : Type;
  opaque : Type;
  str_of_ObjectId : ObjectId -> str;
  str_of_datetime : datetime -> str;
  str_of_opaque : opaque -> str;
  strftime : datetime -> str;
  strptime : str -> option datetime
}.

(** An interface without object ids, timestamps or opaque values. *)
Definition no_bson : Bson :=
  {| ObjectId := Empty_set;
     datetime := Empty_set;
     opaque := Empty_set;
     str_of_ObjectId := fun x => match x with end;
     str_of_datetime := fun x => match x with end;
     str_of_opaque := fun x => match x with end;
     strftime := fun x => match x with end;
     strptime := fun _ => None |}.

(** An interface whose timestamps are the strings of ten characters,
    printed back with a midnight time. *)
Definition plain_bson : Bson :=
  {| ObjectId := Z;
     datetime := str;
     opaque := Empty_set;
     str_of_ObjectId := str_of_int;
     str_of_datetime := fun d => d;
     str_of_opaque := fun x => match x with end;
     strftime := fun d => d ++ " 00:00:00";
     strptime := fun s => if (length s =? 10)%nat then Some s else None |}.

Module Students.

Section Documents.

Context `{Bson}.

(** A value of a JSON request body; [JScalar SNone] is [null]. *)
Inductive json :=
| JScalar (x : scalar)
| JOpaque (x : opaque).

(** A value stored in a document. *)
Inductive field :=
| FObjectId (o : ObjectId)
| FDatetime (d : datetime)
| FJson (j : json).

(** A dictionary with string keys, in insertion order. *)
Definition object (V : Type) := list (str * V).

Definition document := object field.

(** [d[k]], [None] being a [KeyError]; also [d.get(k)] before its default. *)
Fixpoint lookup_key {V} (d : object V) (k : str) : option V :=
  match d with
  | [] => None
  | (k', v) :: d' => if str_eqb k' k then Some v else lookup_key d' k
  end.

(** [d[k] = v] *)
Fixpoint assign_key {V} (d : object V) (k : str) (v : V) : object V :=
  match d with
  | [] => [(k, v)]
  | (k', w) :: d' =>
      if str_eqb k' k then (k', v) :: d' else (k', w) :: assign_key d' k v
  end.

(** [str(x)] *)
Definition str_of_json (j : json) : str :=
  match j with
  | JScalar x => str_of_scalar x
  | JOpaque x => str_of_opaque x
  end.

Definition str_of_field (f : field) : str :=
  match f with
  | FObjectId o => str_of_ObjectId o
  | FDatetime d => str_of_datetime d
  | FJson j => str_of_json j
  end.

(** One pass of the loop of [serialize_doc]. *)
Definition serialize_item (doc : document) (item : str * field) : document :=
  match item with
  | (key, FDatetime value) =>
      assign_key doc key (FJson (JScalar (SStr (strftime value))))
  | _ => doc
  end.

(** [serialize_doc]; [None] is the [KeyError] of a document without
    ["_id"]. *)
Definition serialize_doc (doc : document) : option document :=
  match lookup_key doc ("_id" : str) with
  | None => None
  | Some id =>
      let doc :=
        assign_key doc ("_id" : str) (FJson (JScalar (SStr (str_of_field id)))) in
      Some (fold_left serialize_item doc doc)
  end.

(** What the loop of [serialize_doc] makes of one item. *)
Definition converted (item : str * field) : str * field :=
  match item with
  | (key, FDatetime d) => (key, FJson (JScalar (SStr (strftime d))))
  | _ => item
  end.

(** The serialized form of one item of a document, as a function of the
    item alone. *)
Definition serialized_item (item : str * field) : str * field :=
  match item with
  | (key, value) =>
      if str_eqb key ("_id" : str)
      then (key, FJson (JScalar (SStr (str_of_field value))))
      else match value with
           | FDatetime d => (key, FJson (JScalar (SStr (strftime d))))
           | _ => (key, value)
           end
  end.

(** [student_data.get(k)] *)
Definition get (student_data : object json) (k : str) : json :=
  default (JScalar SNone) (lookup_key student_data k).

(** [datetime.strptime(x, "%Y-%m-%d")] inside the [try] of the endpoints:
    [None] is the [TypeError] of a value that is not a string, or the
    [ValueError] of a string that is not a date. *)
Definition parse_date_field (x : json) : option datetime :=
  match x with
  | JScalar (SStr s) => strptime s
  | _ => None
  end.

(** The document that [add_students] prepares for one student; [None] is
    the [except] branch. *)
Definition prepare_student (student_data : object json) : option document :=
  let _studentId := get student_data "student_id"%string in
  let _fName := get student_data "first_name"%string in
  let _lName := get student_data "last_name"%string in
  let _age := get student_data "age"%string in
  let _gender := get student_data "gender"%string in
  let _imageURL := get student_data "image"%string in
  let _active := get student_data "active"%string in
  let _isDeleted := get student_data "is_deleted"%string in
  match parse_date_field (get student_data "created"%string) with
  | None => None
  | Some _created =>
      match parse_date_field (get student_data "last_updated"%string) with
      | None => None
      | Some _lastUpdated =>
          let _createdBy := get student_data "created_by"%string in
          let _lastUpdatedBy := get student_data "last_updated_by"%string in
          Some [(("student_id" : str), FJson _studentId);
                (("first_name" : str), FJson _fName);
                (("last_name" : str), FJson _lName);
                (("age" : str), FJson _age);
                (("gender" : str), FJson _gender);
                (("image" : str), FJson _imageURL);
                (("active" : str), FJson _active);
                (("is_deleted" : str), FJson _isDeleted);
                (("created" : str), FDatetime _created);
                (("created_by" : str), FJson _createdBy);
                (("last_updated" : str), FDatetime _lastUpdated);
                (("last_updated_by" : str), FJson _lastUpdatedBy)]
      end
  end.

(** The loop of [add_students]: the list to insert, or [None] when a
    student has no valid dates. *)
Fixpoint prepare_all (insert_list : list document)
    (students_list : list (object json)) : option (list document) :=
  match students_list with
  | [] => Some insert_list
  | student_data :: rest =>
      match prepare_student student_data with
      | None => None
      | Some d => prepare_all (insert_list ++ [d]) rest
      end
  end.

Definition invalid_date_message : str :=
  "Invalid or missing date format in one or more student records (expected YYYY-MM-DD)"%string.

Section Store.

(** The collection [mongo.db.students] and its [insert_many]. *)
Variable DB : Type.
Variable insert_many : list document → DB → DB.

(** [add_students]: the message, the status and the collection after the
    request.  [students_list] is [request.json] when it is an array of
    objects; [None] is a missing body. *)
Definition add_students (db : DB) (url : str)
    (students_list : option (list (object json))) : str * Z * DB :=
  match students_list with
  | None | Some [] => ("Not found " ++ url, 404, db)
  | Some students_list =>
      match prepare_all [] students_list with
      | None => (invalid_date_message, 400, db)
      | Some insert_list =>
          let db :=
            match insert_list with
            | [] => db
            | _ :: _ => insert_many insert_list db
            end in
          (("Students added successfully" : str), 200, db)
      end
  end.

End Store.

End Documents.

End Students.

(** Sample documents over [plain_bson]. *)
Definition text_field (s : str) : @Students.field plain_bson :=
  Students.FJson (Students.JScalar (SStr s)).

Definition stored_doc : @Students.document plain_bson :=
  [(("_id" : str), @Students.FObjectId plain_bson 7);
   (("name" : str), text_field ("Ann" : str));
   (("created" : str), @Students.FDatetime plain_bson ("2024-01-01" : str))].

Definition serialized_doc : @Students.document plain_bson :=
  [(("_id" : str), text_field ("7" : str));
   (("name" : str), text_field ("Ann" : str));
   (("created" : str), text_field ("2024-01-01 00:00:00" : str))].

(** Sample request bodies of [add_students]. *)
Definition text_json (s : str) : @Students.json plain_bson :=
  Students.JScalar (SStr s).

Definition dated_student : Students.object (@Students.json plain_bson) :=
  [(("student_id" : str), text_json ("S1" : str));
   (("created" : str), text_json ("2024-01-01" : str));
   (("last_updated" : str), text_json ("2024-02-01" : str))].

Definition undated_student : Students.object (@Students.json plain_bson) :=
  [(("student_id" : str), text_json ("S2" : str));
   (("created" : str), text_json ("yesterday" : str))].

(** A collection kept as the list of its documents. *)
Definition list_insert_many
    (docs db : list (@Students.document plain_bson))
    : list (@Students.document plain_bson) :=
  db ++ docs.

(** ** Strings *)

Section Strings.

Implicit Types (s t p : str) (c sep : ascii).

Lemma eqb_ascii_true a b : Ascii.eqb a b = true ↔ a = b.
Proof. apply Ascii.eqb_eq. Qed.

Lemma eqb_ascii_false a b : Ascii.eqb a b = false ↔ a ≠ b.
Proof. apply Ascii.eqb_neq. Qed.

Lemma startswith_app p t : startswith p (p ++ t) = true.
Proof.
  induction p as [|a p IH]; simpl; [done|].
  by rewrite Ascii.eqb_refl, IH.
Qed.

Lemma startswith_inv p s : startswith p s = true → ∃ t, s = p ++ t.
Proof.
  revert s. induction p as [|a p IH]; intros s Hs; simpl in *.
  - by exists s.
  - destruct s as [|b s]; [done|].
    apply andb_true_iff in Hs as [Hab Hs].
    apply eqb_ascii_true in Hab as ->.
    destruct (IH _ Hs) as [t ->]. by exists t.
Qed.

Lemma startswith_truthy p s :
  p ≠ [] → startswith p s = true → truthy s = true.
Proof. destruct p, s; simpl; done. Qed.

(** *** [split], [split_once] and [join] *)

Lemma split_nonempty sep s : split sep s ≠ [].
Proof.
  destruct s as [|c s]; simpl; [done|].
  destruct (Ascii.eqb c sep); [done|]. by destruct (split sep s).
Qed.

Lemma split_no_sep sep s : Forall (λ x, sep ∉ x) (split sep s).
Proof.
  induction s as [|c s IH]; simpl.
  - repeat constructor. by intros ?%elem_of_nil.
  - destruct (Ascii.eqb c sep) eqn:Hc.
    + constructor; [by intros ?%elem_of_nil | done].
    + apply eqb_ascii_false in Hc.
      destruct (split sep s) as [|x xs]; inversion IH; subst.
      * repeat constructor. intros ?%list_elem_of_singleton. congruence.
      * constructor; [|done].
        intros [?|?]%elem_of_cons; [congruence | done].
Qed.

Lemma split_whole sep s : sep ∉ s → split sep s = [s].
Proof.
  induction s as [|c s IH]; simpl; [done|]. intros Hs.
  apply not_elem_of_cons in Hs as [Hc Hs].
  apply not_eq_sym, eqb_ascii_false in Hc. by rewrite Hc, (IH Hs).
Qed.

Lemma split_app sep p t :
  sep ∉ p → split sep (p ++ sep :: t) = p :: split sep t.
Proof.
  induction p as [|c p IH]; cbn [app split]; intros Hp.
  - by rewrite Ascii.eqb_refl.
  - apply not_elem_of_cons in Hp as [Hc Hp].
    apply not_eq_sym, eqb_ascii_false in Hc. by rewrite Hc, (IH Hp).
Qed.

Lemma split_join sep (l : list str) :
  l ≠ [] → Forall (λ x, sep ∉ x) l → split sep (join sep l) = l.
Proof.
  induction l as [|x l IH]; [done|]. intros _ Hall.
  apply Forall_cons in Hall as [Hx Hl].
  destruct l as [|y l]; [by apply split_whole|].
  change (join sep (x :: y :: l)) with (x ++ sep :: join sep (y :: l)).
  rewrite split_app by done. by rewrite IH.
Qed.

Lemma join_nil_inv sep (l : list str) :
  join sep l = [] → Forall (λ x, x = []) l.
Proof.
  destruct l as [|x [|y l]]; simpl; intros Hj.
  - constructor.
  - by repeat constructor.
  - by apply app_eq_nil in Hj as [_ ?].
Qed.

Lemma join_forall (P : ascii → Prop) sep (l : list str) :
  P sep → Forall (Forall P) l → Forall P (join sep l).
Proof.
  intros Hsep. induction l as [|x l IH]; intros Hall; [constructor|].
  apply Forall_cons in Hall as [Hx Hl].
  destruct l as [|y l]; [done|].
  change (join sep (x :: y :: l)) with (x ++ sep :: join sep (y :: l)).
  apply Forall_app. split; [done|]. constructor; [done|]. by apply IH.
Qed.

Lemma split_once_app sep p t :
  sep ∉ p → split_once sep (p ++ sep :: t) = [p; t].
Proof.
  induction p as [|c p IH]; simpl; intros Hp.
  - by rewrite Ascii.eqb_refl.
  - apply not_elem_of_cons in Hp as [Hc Hp].
    apply not_eq_sym, eqb_ascii_false in Hc. rewrite Hc.
    by rewrite (IH Hp).
Qed.

(** The part before the first separator of a string that contains one. *)
Lemma first_sep sep s :
  sep ∈ s → ∃ p t, s = p ++ sep :: t ∧ sep ∉ p.
Proof.
  induction s as [|c s IH]; [by intros ?%elem_of_nil|].
  intros Hin. destruct (decide (c = sep)) as [->|Hne].
  - exists [], s. split; [done | by intros ?%elem_of_nil].
  - apply elem_of_cons in Hin as [?|Hin]; [congruence|].
    destruct (IH Hin) as (p & t & -> & Hp).
    exists (c :: p), t. split; [done|].
    intros [?|?]%elem_of_cons; [congruence | done].
Qed.

End Strings.

(** *** [strip] *)

Section Strip.

Implicit Types (s t : str) (c : ascii).

Lemma lstrip_clean s : starts_clean s → lstrip s = s.
Proof. destruct s as [|c s]; simpl; [done|]. by intros ->. Qed.

Lemma lstrip_starts_clean s : starts_clean (lstrip s).
Proof.
  induction s as [|c s IH]; simpl; [done|].
  destruct (isspace c) eqn:Hc; [done|]. by simpl.
Qed.

Lemma elem_of_lstrip c s : c ∈ lstrip s → c ∈ s.
Proof.
  induction s as [|a s IH]; simpl; [done|].
  destruct (isspace a); [|done]. intros ?%IH. by right.
Qed.

Lemma elem_of_rev c s : c ∈ rev s ↔ c ∈ s.
Proof. rewrite !list_elem_of_In. symmetry. apply in_rev. Qed.

Lemma elem_of_strip c s : c ∈ strip s → c ∈ s.
Proof.
  unfold strip, rstrip. intros Hc%elem_of_rev%elem_of_lstrip.
  by apply elem_of_rev, elem_of_lstrip in Hc.
Qed.

Lemma rstrip_snoc s c : isspace c = true → rstrip (s ++ [c]) = rstrip s.
Proof. intros Hc. unfold rstrip. rewrite rev_unit. simpl. by rewrite Hc. Qed.

(** A trailing whitespace character, such as the LF of a line, does not
    survive [strip]. *)
Lemma strip_snoc s c : isspace c = true → strip (s ++ [c]) = strip s.
Proof.
  intros Hc. unfold strip. induction s as [|a s IH]; simpl.
  - by rewrite Hc.
  - destruct (isspace a); [done|].
    change (a :: s ++ [c]) with ((a :: s) ++ [c]).
    by rewrite rstrip_snoc.
Qed.

Lemma strip_clean s : starts_clean s → starts_clean (rev s) → strip s = s.
Proof.
  intros Hs Hr. unfold strip, rstrip.
  by rewrite (lstrip_clean s), (lstrip_clean (rev s)), rev_involutive.
Qed.

Lemma strip_ends_clean s : starts_clean (rev (strip s)).
Proof.
  unfold strip, rstrip. rewrite rev_involutive. apply lstrip_starts_clean.
Qed.

Lemma rstrip_starts_clean s : starts_clean s → starts_clean (rstrip s).
Proof.
  unfold rstrip. induction s as [|c s IH] using rev_ind; [done|].
  rewrite rev_unit. simpl. destruct (isspace c) eqn:Hc.
  - intros Hs. apply IH. by destruct s.
  - simpl. by rewrite rev_involutive.
Qed.

Lemma strip_starts_clean s : starts_clean (strip s).
Proof. apply rstrip_starts_clean, lstrip_starts_clean. Qed.

Lemma starts_clean_app s t t' :
  s ≠ [] → starts_clean (s ++ t) → starts_clean (s ++ t').
Proof. by destruct s. Qed.

Lemma isspace_LF : isspace LF = true.
Proof. reflexivity. Qed.

End Strip.

(** ** Lines of a text *)

Section Lines.

Implicit Types (s line b : str) (lines : list str).

Lemma concat_readlines s : concat (readlines s) = s.
Proof.
  induction s as [|c s IH]; simpl; [done|].
  destruct (Ascii.eqb c LF) eqn:Hc.
  - apply eqb_ascii_true in Hc as ->. simpl. by rewrite IH.
  - destruct (readlines s) as [|l ls]; simpl in *; by rewrite <- IH.
Qed.

Lemma terminated_cons c line : c ≠ LF → terminated line → terminated (c :: line).
Proof.
  intros Hc (b & -> & Hb). exists (c :: b). split; [done|].
  intros [?|?]%elem_of_cons; [congruence | done].
Qed.

Lemma text_lines_cons line l lines :
  text_lines (line :: l :: lines) ↔ terminated line ∧ text_lines (l :: lines).
Proof. done. Qed.

Lemma readlines_text_lines s : text_lines (readlines s).
Proof.
  induction s as [|c s IH]; simpl; [done|].
  destruct (Ascii.eqb c LF) eqn:Hc.
  - assert (terminated [LF]) as Ht.
    { exists []. split; [done | apply not_elem_of_nil]. }
    destruct (readlines s); simpl; auto.
  - apply eqb_ascii_false in Hc.
    destruct (readlines s) as [|l [|l' ls]].
    + right. split; [done|].
      intros ?%list_elem_of_singleton. congruence.
    + destruct IH as [Ht|[Hne Hl]].
      * left. by apply terminated_cons.
      * right. split; [done|].
        intros [?|?]%elem_of_cons; [congruence | done].
    + apply text_lines_cons in IH as [Ht Hls].
      apply text_lines_cons. split; [by apply terminated_cons | done].
Qed.

Lemma readlines_terminated b s :
  LF ∉ b → readlines ((b ++ [LF]) ++ s) = (b ++ [LF]) :: readlines s.
Proof.
  induction b as [|c b IH]; intros Hb.
  - reflexivity.
  - apply not_elem_of_cons in Hb as [Hc Hb].
    apply not_eq_sym, eqb_ascii_false in Hc. cbn [app readlines]. rewrite Hc.
    by rewrite (IH Hb).
Qed.

Lemma readlines_remainder line :
  line ≠ [] → LF ∉ line → readlines line = [line].
Proof.
  induction line as [|c line IH]; [done|]. intros _ Hl.
  apply not_elem_of_cons in Hl as [Hc Hl].
  apply not_eq_sym, eqb_ascii_false in Hc. cbn [readlines]. rewrite Hc.
  destruct line as [|d line]; [done|]. by rewrite IH.
Qed.

(** Reading back what was written line by line gives the same lines. *)
Lemma readlines_concat lines :
  text_lines lines → readlines (concat lines) = lines.
Proof.
  induction lines as [|line lines IH]; [done|].
  destruct lines as [|l lines].
  - simpl. rewrite app_nil_r. intros [(b & -> & Hb)|[Hne Hl]].
    + rewrite <- (app_nil_r (b ++ [LF])) at 1.
      by rewrite readlines_terminated.
    + by apply readlines_remainder.
  - intros [(b & -> & Hb) Hls]%text_lines_cons.
    change (concat ((b ++ [LF]) :: l :: lines))
      with ((b ++ [LF]) ++ concat (l :: lines)).
    rewrite readlines_terminated by done. by rewrite IH.
Qed.

Lemma text_lines_map (f : str → str) updated_line lines :
  terminated updated_line →
  (∀ line, f line = updated_line ∨ f line = line) →
  text_lines lines → text_lines (map f lines).
Proof.
  intros Hu Hf. induction lines as [|line lines IH]; [done|].
  destruct lines as [|l lines].
  - simpl. destruct (Hf line) as [->| ->]; auto.
  - intros [Ht Hls]%text_lines_cons.
    change (map f (line :: l :: lines))
      with (f line :: f l :: map f lines).
    apply text_lines_cons. split; [|by apply IH].
    by destruct (Hf line) as [->| ->].
Qed.

(** A line of a text, once stripped, holds no LF. *)
Lemma text_lines_strip lines line :
  text_lines lines → line ∈ lines → LF ∉ strip line.
Proof.
  induction lines as [|l lines IH]; [by intros _ ?%elem_of_nil|].
  assert (terminated l → LF ∉ strip l) as Hterm.
  { intros (b & -> & Hb). rewrite strip_snoc by apply isspace_LF.
    by intros ?%elem_of_strip. }
  destruct lines as [|l' lines].
  - intros Hl ->%list_elem_of_singleton. destruct Hl as [Ht|[_ Hl]]; [auto|].
    by intros ?%elem_of_strip.
  - intros [Ht Hls]%text_lines_cons [->|Hin]%elem_of_cons; auto.
Qed.

End Lines.

(** ** Integer tests *)

Ltac zbool :=
  repeat match goal with
    | H : (_ && _) = true |- _ => apply andb_true_iff in H as [? ?]
    | H : (_ && _) = false |- _ => apply andb_false_iff in H as [?|?]
    | H : (_ <=? _) = true |- _ => apply Z.leb_le in H
    | H : (_ <=? _) = false |- _ => apply Z.leb_gt in H
    | H : (_ <? _) = true |- _ => apply Z.ltb_lt in H
    | H : (_ <? _) = false |- _ => apply Z.ltb_ge in H
    | H : (_ >? _) = true |- _ => rewrite Z.gtb_ltb in H
    | H : (_ >? _) = false |- _ => rewrite Z.gtb_ltb in H
    | H : (_ =? _) = true |- _ => apply Z.eqb_eq in H
    | H : (_ =? _) = false |- _ => apply Z.eqb_neq in H
    end.

Lemma in_range_true {A} (i : Z) (l : list A) :
  in_range i l = true ↔ 0 <= i < Z.of_nat (length l).
Proof.
  unfold in_range. rewrite andb_true_iff, Z.leb_le, Z.ltb_lt. done.
Qed.

Lemma in_range_false {A} (pos : Z) (l : list A) :
  out_of_range pos l → in_range (pos - 1) l = false.
Proof.
  unfold out_of_range. intros Hp.
  destruct (in_range (pos - 1) l) eqn:Hr; [|done].
  apply in_range_true in Hr. lia.
Qed.

Lemma at_pos_in_range {A} (l : list A) (pos : Z) (x : A) :
  at_pos l pos = Some x →
  in_range (pos - 1) l = true ∧ l !! Z.to_nat (pos - 1) = Some x.
Proof.
  unfold at_pos. destruct (1 <=? pos) eqn:Hp; [|done]. intros Hx.
  split; [|done]. apply in_range_true. apply lookup_lt_Some in Hx.
  zbool. lia.
Qed.

(** ** [read] *)

Section Read.

Implicit Types (key line raw : str) (lines : list str).

(** A line of the key splits, at its first attribute mark, into two. *)
Lemma key_line_split key line :
  key_line key line = true →
  ∃ pre raw, strip line = pre ++ AM :: raw ∧ (AM ∉ pre)
             ∧ split_once AM (strip line) = [pre; raw].
Proof.
  intros [t Ht]%startswith_inv.
  destruct (first_sep AM (strip line)) as (pre & raw & Hs & Hpre).
  { rewrite Ht. apply elem_of_app. left. apply elem_of_app. right. by left. }
  exists pre, raw. split_and!; [done..|]. rewrite Hs. by apply split_once_app.
Qed.

(** When the key holds no attribute mark, the first part is the key. *)
Lemma key_line_raw key line pre raw :
  AM ∉ key → key_line key line = true →
  strip line = pre ++ AM :: raw → AM ∉ pre → pre = key.
Proof.
  intros Hkey [t Ht]%startswith_inv Hs Hpre.
  rewrite Hs, <- app_assoc in Ht. simpl in Ht. clear Hs.
  revert key Hkey Ht. induction pre as [|c pre IH]; intros [|d key] Hkey Ht.
  - done.
  - injection Ht as <- _. exfalso. apply Hkey. by left.
  - injection Ht as -> _. exfalso. apply Hpre. by left.
  - injection Ht as -> Ht. f_equal.
    apply not_elem_of_cons in Hpre as [_ Hpre].
    apply not_elem_of_cons in Hkey as [_ Hkey]. by apply IH.
Qed.

Lemma read_lines_skip key line lines :
  key_line key line = false →
  read_lines key (line :: lines) = read_lines key lines.
Proof.
  unfold key_line. intros Hk. cbn [read_lines].
  by rewrite Hk, andb_false_r.
Qed.

Lemma read_lines_match key line lines pre raw :
  key_line key line = true →
  split_once AM (strip line) = [pre; raw] →
  read_lines key (line :: lines) = Ok (init (Some key) (Some raw)).
Proof.
  unfold key_line. intros Hk Hs. cbn [read_lines].
  rewrite Hk, Hs, (startswith_truthy (key ++ [AM])); [done| |done].
  by destruct key.
Qed.

Lemma read_lines_none key lines :
  Forall (λ line, key_line key line = false) lines →
  read_lines key lines = Ok (not_found_record key).
Proof.
  induction 1 as [|line lines Hk _ IH]; [done|].
  by rewrite read_lines_skip.
Qed.

Lemma read_lines_first key before line after pre raw :
  Forall (λ l, key_line key l = false) before →
  key_line key line = true →
  split_once AM (strip line) = [pre; raw] →
  read_lines key (before ++ line :: after) = Ok (init (Some key) (Some raw)).
Proof.
  induction 1 as [|l before Hk _ IH]; intros Hline Hs; simpl app.
  - by eapply read_lines_match.
  - rewrite read_lines_skip by done. by apply IH.
Qed.

(** Every run of the loop ends in one of the two ways. *)
Lemma read_lines_cases key lines :
  (Forall (λ line, key_line key line = false) lines
   ∧ read_lines key lines = Ok (not_found_record key))
  ∨ (∃ before line after pre raw,
       lines = before ++ line :: after
       ∧ Forall (λ l, key_line key l = false) before
       ∧ key_line key line = true
       ∧ strip line = pre ++ AM :: raw ∧ (AM ∉ pre)
       ∧ read_lines key lines = Ok (init (Some key) (Some raw))).
Proof.
  induction lines as [|l lines IH]; [by left|].
  destruct (key_line key l) eqn:Hk.
  - right. destruct (key_line_split _ _ Hk) as (pre & raw & Hs & Hpre & Hsplit).
    exists [], l, lines, pre, raw. split_and!; try done.
    by eapply read_lines_match.
  - rewrite read_lines_skip by done.
    destruct IH as [[Hall Hr]|(before & line & after & pre & raw & -> & ? & ? & ? & ? & ?)].
    + left. split; [by constructor | done].
    + right. exists (l :: before), line, after, pre, raw.
      split_and!; try done. by constructor.
Qed.

End Read.

(** C6: [read] scans the lines of the backing store in order and builds the
    record from the first line whose trimmed content starts with the key and
    the attribute mark: its [record_key] is the key, its [raw_data] is what
    follows the first attribute mark of that line (later marks are kept),
    and its [attributes] are that string split on the attribute mark (none
    for the empty string).  When the file does not exist or no line matches,
    the record has the key, no [raw_data] and no attributes; no error is
    raised. *)
Theorem read_first_match (fs : FS) (key : str) :
  (data_file fs = None →
   read fs key
   = Ok {| record_key := Some key; raw_data := None; attributes := [] |})
  ∧ (∀ content,
       data_file fs = Some content →
       Forall (λ line, key_line key line = false) (readlines content) →
       read fs key
       = Ok {| record_key := Some key; raw_data := None; attributes := [] |})
  ∧ (∀ content before line after,
       data_file fs = Some content →
       readlines content = before ++ line :: after →
       Forall (λ l, key_line key l = false) before →
       key_line key line = true →
       ∃ pre raw,
         strip line = pre ++ AM :: raw
         ∧ (AM ∉ pre)
         ∧ read fs key
           = Ok {| record_key := Some key;
                   raw_data := Some raw;
                   attributes := if truthy raw then split AM raw else [] |})
  ∧ (∃ r, read fs key = Ok r).
Proof.
  unfold read. split_and!.
  - by intros ->.
  - intros content -> Hall. by apply read_lines_none.
  - intros content before line after -> -> Hbefore Hline.
    destruct (key_line_split _ _ Hline) as (pre & raw & Hs & Hpre & Hsplit).
    exists pre, raw. split_and!; [done..|].
    by rewrite (read_lines_first key before line after pre raw).
  - destruct (data_file fs) as [content|]; [|by eexists].
    destruct (read_lines_cases key (readlines content))
      as [[_ ->]|(? & ? & ? & ? & raw & _ & _ & _ & _ & _ & ->)]; by eexists.
Qed.

Lemma read_first_match_witness :
  read {| data_file := None; bak_file := None |} ("102" : str)
  = Ok {| record_key := Some ("102" : str); raw_data := None;
          attributes := [] |}
  ∧ read test_fs ("999" : str)
    = Ok {| record_key := Some ("999" : str); raw_data := None;
            attributes := [] |}
  ∧ read test_fs ("102" : str)
    = Ok {| record_key := Some ("102" : str);
            raw_data :=
              Some ("Jane Smith^150.00]800.00^2024-02-10]2024-03-15" : str);
            attributes :=
              [("Jane Smith" : str); ("150.00]800.00" : str);
               ("2024-02-10]2024-03-15" : str)] |}.
Proof.
  split_and!.
  - by apply (read_first_match {| data_file := None; bak_file := None |}).
  - apply (read_first_match test_fs ("999" : str)) with test_data; [done|].
    vm_compute. by repeat constructor.
  - destruct (read_first_match test_fs ("102" : str)) as (_ & _ & Hfound & _).
    destruct (Hfound test_data
                [("101^John Doe^2500.00]400.00]12.50^2023-11-01]2023-12-01]2024-01-15"
                    ++ [LF] : str)]
                ("102^Jane Smith^150.00]800.00^2024-02-10]2024-03-15" ++ [LF])
                [("103^Alex Chen^9800.00^^2024-04-20" ++ [LF] : str);
                 ("104^Lisa Wong^100.00]50.00^2024-05-01]2024-05-15]2024-06-01]2024-06-15"
                    ++ [LF] : str)])
      as (pre & raw & Hstrip & Hpre & Hread);
      [done | by vm_compute | vm_compute; by repeat constructor
      | by vm_compute |].
    pose proof Hread as Hraw. vm_compute in Hraw.
    injection Hraw as Hraw _. subst raw. exact Hread.
Defined.

(** ** [extract] *)

(** C4 (as the code has it): [extract] is a total function to strings.  An
    attribute position that is not positive or lies past the last attribute
    gives the empty string; so does a value or subvalue position that is
    negative or lies past the last element of its level.  A value or
    subvalue position of zero counts as not given: the enclosing attribute
    or value is returned whole. *)
Theorem extract_out_of_range (r : PickRecord) (attribute_pos : Z)
    (value_pos subvalue_pos : option Z) :
  (out_of_range attribute_pos (attributes r) →
   extract r attribute_pos value_pos subvalue_pos = [])
  ∧ (∀ attr vp,
       at_pos (attributes r) attribute_pos = Some attr →
       value_pos = Some vp → vp ≠ 0 →
       out_of_range vp (split VM attr) →
       extract r attribute_pos value_pos subvalue_pos = [])
  ∧ (∀ attr vp val sp,
       at_pos (attributes r) attribute_pos = Some attr →
       value_pos = Some vp →
       at_pos (split VM attr) vp = Some val →
       subvalue_pos = Some sp → sp ≠ 0 →
       out_of_range sp (split SM val) →
       extract r attribute_pos value_pos subvalue_pos = [])
  ∧ (value_pos = Some 0 →
     extract r attribute_pos value_pos subvalue_pos
       = extract r attribute_pos None None)
  ∧ (subvalue_pos = Some 0 →
     extract r attribute_pos value_pos subvalue_pos
       = extract r attribute_pos value_pos None).
Proof.
  split_and!.
  - intros Hout. unfold extract. by rewrite in_range_false.
  - intros attr vp [Hr Ha]%at_pos_in_range -> Hvp Hout.
    unfold extract, given. rewrite Hr, Ha.
    destruct (truthy attr); [|done]. simpl.
    apply Z.eqb_neq in Hvp. rewrite Hvp. by rewrite in_range_false.
  - intros attr vp val sp [Hr Ha]%at_pos_in_range -> Hval -> Hsp Hout.
    assert (vp ≠ 0) as Hvp.
    { unfold at_pos in Hval. destruct (1 <=? vp) eqn:?; [zbool; lia | done]. }
    apply at_pos_in_range in Hval as [Hrv Hv].
    unfold extract, given. rewrite Hr, Ha.
    destruct (truthy attr); [|done]. simpl.
    apply Z.eqb_neq in Hvp, Hsp. rewrite Hvp, Hrv, Hv, Hsp.
    by rewrite in_range_false.
  - by intros ->.
  - intros ->. unfold extract. by repeat case_match.
Qed.

Lemma extract_out_of_range_witness :
  let r := init (Some ("900" : str)) (Some ("Name^A]B\S1\S2^100" : str)) in
  extract r 0 (Some 1) None = []
  ∧ extract r 2 (Some 3) None = []
  ∧ extract r 2 (Some 2) (Some (-1)) = []
  ∧ extract r 2 (Some 0) None = extract r 2 None None
  ∧ extract r 2 (Some 2) (Some 0) = extract r 2 (Some 2) None.
Proof.
  intros r. split_and!.
  - destruct (extract_out_of_range r 0 (Some 1) None) as (Hattr & _).
    apply Hattr. left. lia.
  - destruct (extract_out_of_range r 2 (Some 3) None) as (_ & Hvalue & _).
    apply (Hvalue ("A]B\S1\S2" : str) 3); [done | done | lia |].
    right. vm_compute. done.
  - destruct (extract_out_of_range r 2 (Some 2) (Some (-1)))
      as (_ & _ & Hsub & _).
    apply (Hsub ("A]B\S1\S2" : str) 2 ("B\S1\S2" : str) (-1));
      [done | done | done | done | lia |].
    left. lia.
  - destruct (extract_out_of_range r 2 (Some 0) None) as (_ & _ & _ & Hz & _).
    by apply Hz.
  - destruct (extract_out_of_range r 2 (Some 2) (Some 0))
      as (_ & _ & _ & _ & Hz).
    by apply Hz.
Defined.

(** A value position of zero is not positive, yet the whole attribute comes
    back instead of the empty string. *)
Lemma extract_value_zero_counterexample :
  let r := init (Some ("900" : str)) (Some ("Name^A]B^100" : str)) in
  0 <= 0 ∧ extract r 2 (Some 0) None = ("A]B" : str)
  ∧ extract r 2 (Some 0) None ≠ [].
Proof. intros r. split_and!; [lia | done | done]. Qed.

(** The values checked by the repository's tests. *)
Example extract_test_data :
  let rec := found test_fs ("101" : str) in
  extract rec 1 None None = ("John Doe" : str)
  ∧ extract rec 2 (Some 1) None = ("2500.00" : str)
  ∧ extract rec 2 (Some 2) None = ("400.00" : str)
  ∧ extract rec 2 (Some 99) None = []
  ∧ extract rec 99 None None = []
  ∧ extract (init (Some ("900" : str)) (Some ("Name^A]B\S1\S2^100" : str)))
      2 (Some 2) (Some 3) = ("S2" : str).
Proof. by vm_compute. Qed.

(** ** The invariant between [raw_data] and [attributes] *)

Lemma update_inv (fs fs' : FS) (r r' : PickRecord) (m : attribute_map) :
  update fs r m = Ok (fs', r') →
  ∃ key attrs content,
    record_key r = Some key ∧ key ≠ []
    ∧ new_attributes r m = Ok attrs
    ∧ data_file fs = Some content
    ∧ fs' = {| data_file :=
                 Some (rewrite_lines key (key ++ [AM] ++ join AM attrs ++ [LF])
                         (readlines content));
               bak_file := Some content |}
    ∧ r' = {| record_key := Some key;
              raw_data := Some (join AM attrs);
              attributes := split AM (join AM attrs) |}.
Proof.
  unfold update. destruct (record_key r) as [key|]; [|done].
  destruct key as [|c key]; [done|]. simpl negb. cbv iota.
  destruct (new_attributes r m) as [attrs|e]; [|done].
  cbn [mbind result_bind bind].
  destruct (data_file fs) as [content|]; [|done].
  intros [= <- <-]. by exists (c :: key), attrs, content.
Qed.

(** C5 (as the code has it): a constructed or read record whose [raw_data]
    is a non-empty string has [attributes] equal to [raw_data] split on the
    attribute mark (for the empty string the attribute list is empty
    instead); [update] leaves [attributes] equal to the split of the new
    [raw_data], whatever it is, and the line it writes is the key, the
    attribute mark and that [raw_data]. *)
Theorem attributes_in_sync :
  (∀ key raw, raw ≠ [] → attributes (init key (Some raw)) = split AM raw)
  ∧ (∀ fs key r raw,
       read fs key = Ok r → raw_data r = Some raw → raw ≠ [] →
       attributes r = split AM raw)
  ∧ (∀ fs r m fs' r',
       update fs r m = Ok (fs', r') →
       ∃ key content new_raw,
         record_key r = Some key ∧ data_file fs = Some content
         ∧ raw_data r' = Some new_raw
         ∧ attributes r' = split AM new_raw
         ∧ data_file fs'
           = Some (rewrite_lines key (key ++ [AM] ++ new_raw ++ [LF])
                     (readlines content))).
Proof.
  split_and!.
  - intros key [|c raw] Hraw; done.
  - intros fs key r raw Hread Hraw Hne.
    assert (∃ o, r = init (Some key) o) as [o ->].
    { unfold read in Hread. destruct (data_file fs) as [content|].
      - destruct (read_lines_cases key (readlines content))
          as [[_ Hr]|(? & ? & ? & ? & raw' & _ & _ & _ & _ & _ & Hr)];
          rewrite Hr in Hread; injection Hread as <-.
        + by exists None.
        + by exists (Some raw').
      - injection Hread as <-. by exists None. }
    simpl in Hraw. subst o. by destruct raw.
  - intros fs r m fs' r' (key & attrs & content & ? & ? & ? & ? & -> & ->)%update_inv.
    by exists key, content, (join AM attrs).
Qed.

Lemma attributes_in_sync_witness :
  attributes (init (Some ("900" : str)) (Some ("Name^A]B^100" : str)))
    = split AM ("Name^A]B^100" : str)
  ∧ attributes (found test_fs ("103" : str))
    = split AM ("Alex Chen^9800.00^^2024-04-20" : str)
  ∧ ∃ key content new_raw,
      record_key (found test_fs ("103" : str)) = Some key
      ∧ data_file test_fs = Some content
      ∧ new_raw = ("Alex^9800.00^^2024-04-20" : str)
      ∧ split AM new_raw = [("Alex" : str); ("9800.00" : str); []; ("2024-04-20" : str)].
Proof.
  split_and!.
  - by apply attributes_in_sync.
  - destruct attributes_in_sync as (_ & Hread & _).
    by apply (Hread test_fs ("103" : str)).
  - destruct attributes_in_sync as (_ & _ & Hupd).
    destruct (Hupd test_fs (found test_fs ("103" : str))
                [(1, Scalar (SStr ("Alex" : str)))]
                (mkFS (Some (rewrite_lines ("103" : str)
                               ("103^Alex^9800.00^^2024-04-20" ++ [LF])
                               (readlines test_data)))
                      (Some test_data))
                (mkRecord (Some ("103" : str))
                   (Some ("Alex^9800.00^^2024-04-20" : str))
                   (split AM ("Alex^9800.00^^2024-04-20" : str))))
      as (key & content & new_raw & Hk & Hc & Hraw & Hattrs & _).
    { by vm_compute. }
    exists key, content, new_raw. split_and!; [done | done | |].
    + by injection Hraw as <-.
    + injection Hraw as <-. by vm_compute.
Defined.

(** The empty string is a [raw_data] that is present, and the constructor
    gives it no attributes, while its split has one (empty) element. *)
Lemma attributes_in_sync_counterexample :
  let r := init (Some ("105" : str)) (Some []) in
  raw_data r = Some [] ∧ attributes r = [] ∧ split AM [] = [[]]
  ∧ attributes r ≠ split AM [].
Proof. intros r. by split_and!. Qed.

(** ** [update]: the new attribute list *)

Section Assign.

Implicit Types (attrs : list str) (m : attribute_map) (k : Z) (v : value).

Lemma setitem_in_range attrs k (x : str) :
  1 <= k <= Z.of_nat (length attrs) →
  setitem attrs (k - 1) x = Ok (<[Z.to_nat (k - 1) := x]> attrs).
Proof.
  intros Hk. unfold setitem, index.
  destruct ((0 <=? k - 1) && (k - 1 <? Z.of_nat (length attrs))) eqn:Hr; [done|].
  zbool; lia.
Qed.

Lemma fold_max_le (l : list Z) (a : Z) :
  a <= fold_left Z.max l a ∧ Forall (λ x, x <= fold_left Z.max l a) l.
Proof.
  revert a. induction l as [|x l IH]; intros a; simpl.
  - split; [lia | constructor].
  - destruct (IH (Z.max a x)) as [Ha Hl]. split; [lia|].
    constructor; [lia | done].
Qed.

Lemma max_key_le m k v : (k, v) ∈ m → k <= max_key m.
Proof.
  destruct m as [|[k0 v0] m]; [by intros ?%elem_of_nil|].
  unfold max_key. destruct (fold_max_le (map fst m) k0) as [H0 Hl].
  intros [[= -> ->]|Hin]%elem_of_cons; [done|].
  rewrite Forall_forall in Hl. apply Hl.
  apply list_elem_of_In, in_map_iff. exists (k, v).
  split; [done | by apply list_elem_of_In].
Qed.

(** The assignments of a map whose positions all exist: none raises, the
    length stays, each position of the map holds its rendered value, and
    the other positions keep theirs. *)
Lemma assign_in_range m : ∀ attrs,
  Forall (λ kv, 1 <= kv.1 <= Z.of_nat (length attrs)) m →
  ∃ attrs',
    assign attrs m = Ok attrs'
    ∧ length attrs' = length attrs
    ∧ (∀ P : str → Prop,
         Forall P attrs → Forall (λ kv, P (render kv.2)) m → Forall P attrs')
    ∧ (∀ i, Forall (λ kv, Z.to_nat (kv.1 - 1) ≠ i) m → attrs' !! i = attrs !! i)
    ∧ (NoDup (map fst m) →
       Forall (λ kv, attrs' !! Z.to_nat (kv.1 - 1) = Some (render kv.2)) m).
Proof.
  induction m as [|[k v] m IH]; intros attrs Hall.
  - exists attrs. by split_and!.
  - apply Forall_cons in Hall as [Hk Hall]. simpl in Hk.
    destruct (IH (<[Z.to_nat (k - 1) := render v]> attrs))
      as (attrs' & Hassign & Hlen & HP & Hother & Hset).
    { by rewrite length_insert. }
    rewrite length_insert in Hlen.
    exists attrs'. split_and!.
    + cbn [assign]. by rewrite setitem_in_range.
    + done.
    + intros P Hattrs [Hv Hm]%Forall_cons. apply HP; [|done].
      by apply Forall_insert.
    + intros i [Hi Hm]%Forall_cons. rewrite Hother by done.
      by apply list_lookup_insert_ne.
    + simpl map. intros [Hnotin Hnodup]%NoDup_cons. constructor; [|by apply Hset].
      simpl. rewrite Hother.
      * apply list_lookup_insert_eq. lia.
      * rewrite Forall_forall. intros [k' v'] Hin Heq. simpl in Heq.
        rewrite Forall_forall in Hall. specialize (Hall _ Hin). simpl in Hall.
        assert (k' = k) as -> by lia.
        apply Hnotin, list_elem_of_In, in_map_iff. exists (k, v').
        split; [done | by apply list_elem_of_In].
Qed.

(** With positive positions only, [update] finds every position it assigns:
    the list is first extended to the largest one. *)
Lemma new_attributes_positive (r : PickRecord) m :
  Forall (λ kv, 0 < kv.1) m →
  ∃ attrs,
    new_attributes r m = Ok attrs
    ∧ (∀ P : str → Prop,
         Forall P (attributes r) → P [] → Forall (λ kv, P (render kv.2)) m →
         Forall P attrs)
    ∧ (NoDup (map fst m) →
       Forall (λ kv, attrs !! Z.to_nat (kv.1 - 1) = Some (render kv.2)) m).
Proof.
  intros Hpos. unfold new_attributes.
  set (attrs0 := if max_key m >? Z.of_nat (length (attributes r))
                 then attributes r
                      ++ replicate (Z.to_nat (max_key m - Z.of_nat (length (attributes r)))) []
                 else attributes r).
  assert (max_key m <= Z.of_nat (length attrs0)) as Hlen.
  { subst attrs0. destruct (_ >? _) eqn:Hgt; zbool.
    - rewrite length_app, length_replicate. lia.
    - lia. }
  destruct (assign_in_range m attrs0) as (attrs & Hassign & _ & HP & _ & Hset).
  { rewrite Forall_forall in Hpos |- *. intros [k v] Hin.
    specialize (Hpos _ Hin). apply max_key_le in Hin. simpl in *. lia. }
  exists attrs. split_and!; [done | | done].
  intros P Hattrs Hnil Hm. apply HP; [|done].
  subst attrs0. destruct (_ >? _); [|done].
  apply Forall_app. split; [done|]. by apply Forall_replicate.
Qed.

End Assign.

(** ** [update]: the rewritten file *)

Section Rewrite.

Implicit Types (key line updated_line : str) (lines : list str).

Lemma rewrite_lines_none key updated_line lines :
  Forall (λ line, key_line key line = false) lines →
  rewrite_lines key updated_line lines = concat lines.
Proof.
  unfold rewrite_lines. induction 1 as [|line lines Hk _ IH]; [done|].
  simpl. by rewrite Hk, IH.
Qed.

(** The lines written are the lines read, each line of the key replaced. *)
Lemma rewrite_lines_Forall2 key updated_line lines :
  Forall2 (λ old new, if key_line key old then new = updated_line else new = old)
    lines
    (map (λ line, if key_line key line then updated_line else line) lines).
Proof.
  induction lines as [|line lines IH]; simpl; constructor; [|done].
  by destruct (key_line key line).
Qed.

Lemma rewrite_first_match_none key updated_line lines :
  Forall (λ line, key_line key line = false) lines →
  rewrite_first_match key updated_line lines = lines.
Proof.
  induction 1 as [|line lines Hk _ IH]; [done|]. simpl. by rewrite Hk, IH.
Qed.

(** When one line at most is a line of the key, replacing every such line
    and replacing the first one are the same. *)
Lemma rewrite_lines_unique key updated_line before line after :
  Forall (λ l, key_line key l = false) before →
  Forall (λ l, key_line key l = false) after →
  rewrite_lines key updated_line (before ++ line :: after)
    = concat (rewrite_first_match key updated_line (before ++ line :: after)).
Proof.
  intros Hbefore Hafter.
  pose proof (rewrite_lines_none key updated_line after Hafter) as Hrest.
  unfold rewrite_lines in *.
  induction Hbefore as [|l before Hl _ IH]; simpl.
  - destruct (key_line key line); simpl; f_equal; [done|].
    by rewrite rewrite_first_match_none.
  - rewrite Hl. simpl. by rewrite IH.
Qed.

End Rewrite.

(** ** [update]: effect on the file and on the record *)

Lemma update_ok (fs : FS) (r : PickRecord) (m : attribute_map)
    (key content : str) (attrs : list str) :
  record_key r = Some key → key ≠ [] →
  new_attributes r m = Ok attrs →
  data_file fs = Some content →
  update fs r m
  = Ok ({| data_file :=
             Some (rewrite_lines key (key ++ [AM] ++ join AM attrs ++ [LF])
                     (readlines content));
           bak_file := Some content |},
        {| record_key := Some key;
           raw_data := Some (join AM attrs);
           attributes := split AM (join AM attrs) |}).
Proof.
  intros Hkey Hne Hattrs Hfile. unfold update. rewrite Hkey, Hattrs, Hfile.
  by destruct key.
Qed.

(** What the rewriting loop writes: the lines it read, in their order,
    where a line whose trimmed content starts with the key and the
    attribute mark is replaced by key, attribute mark, the new raw
    attribute string and LF, and any other line is written back
    unchanged.  The loop has no notion of a first match. *)
Theorem update_rewrites_key_lines (fs fs' : FS) (r r' : PickRecord)
    (m : attribute_map) :
  update fs r m = Ok (fs', r') →
  ∃ key content new_raw lines',
    record_key r = Some key
    ∧ data_file fs = Some content
    ∧ raw_data r' = Some new_raw
    ∧ data_file fs' = Some (concat lines')
    ∧ Forall2
        (λ old new,
           if key_line key old then new = key ++ [AM] ++ new_raw ++ [LF]
           else new = old)
        (readlines content) lines'.
Proof.
  intros (key & attrs & content & Hkey & _ & _ & Hfile & -> & ->)%update_inv.
  exists key, content, (join AM attrs). eexists.
  split_and!; [done | done | done | reflexivity |].
  apply rewrite_lines_Forall2.
Qed.

Lemma update_rewrites_key_lines_witness :
  ∃ lines',
    Some (concat lines')
    = Some (("101^John Doe^2500.00]400.00]12.50^2023-11-01]2023-12-01]2024-01-15"
               ++ [LF])
            ++ ("102^Jane Doe^999.99]0.00^2024-02-10]2024-03-15" ++ [LF])
            ++ ("103^Alex Chen^9800.00^^2024-04-20" ++ [LF])
            ++ ("104^Lisa Wong^100.00]50.00^2024-05-01]2024-05-15]2024-06-01]2024-06-15"
                  ++ [LF]) : str)
    ∧ Forall2
        (λ old new : str,
           if key_line ("102" : str) old
           then new = ("102^Jane Doe^999.99]0.00^2024-02-10]2024-03-15" ++ [LF] : str)
           else new = old)
        (readlines test_data) lines'.
Proof.
  destruct (update_rewrites_key_lines test_fs
              (mkFS (Some (rewrite_lines ("102" : str)
                             ("102^Jane Doe^999.99]0.00^2024-02-10]2024-03-15"
                                ++ [LF])
                             (readlines test_data)))
                    (Some test_data))
              (found test_fs ("102" : str))
              (mkRecord (Some ("102" : str))
                 (Some ("Jane Doe^999.99]0.00^2024-02-10]2024-03-15" : str))
                 (split AM ("Jane Doe^999.99]0.00^2024-02-10]2024-03-15" : str)))
              [(1, Scalar (SStr ("Jane Doe" : str)));
               (2, Seq [SStr ("999.99" : str); SStr ("0.00" : str)])])
    as (key & content & new_raw & lines' & Hkey & Hfile & Hraw & Hnew & Hlines).
  { by vm_compute. }
  injection Hkey as <-. injection Hfile as <-. injection Hraw as <-.
  exists lines'. split; [|done]. by rewrite <- Hnew.
Defined.

(** C2, evaluated on the code: with the key 7 on two lines, [update]
    replaces both of them by the new line, where the rewrite of the first
    match only keeps the second line as it was; the record that the second
    line held is lost. *)
Theorem update_rewrites_duplicate_lines :
  ∃ fs' r',
    update duplicate_fs (found duplicate_fs ("7" : str))
      [(1, Scalar (SStr ("z" : str)))] = Ok (fs', r')
    ∧ data_file fs' = Some (("7^z" ++ [LF]) ++ ("7^z" ++ [LF]) : str)
    ∧ concat (rewrite_first_match ("7" : str) ("7^z" ++ [LF])
                (readlines duplicate_data))
      = (("7^z" ++ [LF]) ++ ("7^b" ++ [LF]) : str)
    ∧ data_file fs'
      ≠ Some (concat (rewrite_first_match ("7" : str) ("7^z" ++ [LF])
                        (readlines duplicate_data))).
Proof. eexists _, _. split_and!; [by vm_compute | done | done | done]. Qed.

(** C9: when no line of the store is a line of the record's key, [update]
    writes the store back as it was (no line is added), overwrites the
    backup with a copy of it, and sets the in-memory [raw_data] and
    [attributes] to the new joined values, so that a fresh [read] of the key
    still finds nothing.  Positive positions never make it raise. *)
Theorem update_without_line (fs : FS) (r : PickRecord) (m : attribute_map)
    (key content : str) :
  record_key r = Some key → key ≠ [] → raw_data r = None →
  data_file fs = Some content →
  Forall (λ line, key_line key line = false) (readlines content) →
  (∀ attrs,
     new_attributes r m = Ok attrs →
     update fs r m
     = Ok ({| data_file := Some content; bak_file := Some content |},
           {| record_key := Some key;
              raw_data := Some (join AM attrs);
              attributes := split AM (join AM attrs) |})
     ∧ read {| data_file := Some content; bak_file := Some content |} key
       = Ok (not_found_record key))
  ∧ (Forall (λ kv, 0 < kv.1) m → ∃ attrs, new_attributes r m = Ok attrs).
Proof.
  intros Hkey Hne _ Hfile Hnone. split.
  - intros attrs Hattrs. split.
    + rewrite (update_ok fs r m key content attrs) by done.
      by rewrite rewrite_lines_none, concat_readlines.
    + unfold read. simpl. by apply read_lines_none.
  - intros (attrs & Hattrs & _)%(new_attributes_positive r). by exists attrs.
Qed.

Lemma update_without_line_witness :
  update test_fs (found test_fs ("999" : str))
    [(2, Scalar (SStr ("5.00" : str)))]
  = Ok ({| data_file := Some test_data; bak_file := Some test_data |},
        {| record_key := Some ("999" : str);
           raw_data := Some ("^5.00" : str);
           attributes := [[]; ("5.00" : str)] |})
  ∧ read {| data_file := Some test_data; bak_file := Some test_data |}
      ("999" : str)
    = Ok (not_found_record ("999" : str)).
Proof.
  destruct (update_without_line test_fs (found test_fs ("999" : str))
              [(2, Scalar (SStr ("5.00" : str)))] ("999" : str) test_data)
    as [Hupd _]; [done | done | done | done | |].
  { vm_compute. by repeat constructor. }
  by apply (Hupd [[]; ("5.00" : str)]).
Defined.

(** ** Reading back an updated record *)

Section Roundtrip.

Implicit Types (key line raw new_raw : str) (lines : list str).

Lemma not_elem_of_Forall (c : ascii) (s : str) :
  c ∉ s ↔ Forall (λ x, x ≠ c) s.
Proof.
  rewrite Forall_forall. split.
  - intros Hc x Hx ->. done.
  - intros Hall Hc. by apply (Hall c).
Qed.

Lemma split_Forall (P : ascii → Prop) sep (s : str) :
  Forall P s → Forall (Forall P) (split sep s).
Proof.
  induction 1 as [|c s Hc _ IH]; simpl; [by repeat constructor|].
  destruct (Ascii.eqb c sep); [by repeat constructor|].
  destruct (split sep s) as [|x xs]; [by repeat constructor|].
  apply Forall_cons in IH as [Hx Hxs]. by repeat constructor.
Qed.

Lemma extract_whole (r : PickRecord) (k : Z) (x : str) :
  0 < k → attributes r !! Z.to_nat (k - 1) = Some x →
  extract r k None None = x.
Proof.
  intros Hk Hx. unfold extract.
  assert (in_range (k - 1) (attributes r) = true) as ->.
  { apply in_range_true. apply lookup_lt_Some in Hx. lia. }
  rewrite Hx. by destruct x.
Qed.

(** The line that [update] writes, once stripped, is the line without its
    LF, provided the new raw string does not end in whitespace. *)
Lemma updated_line_strip key new_raw :
  starts_clean (key ++ [AM]) → rstrip new_raw = new_raw →
  strip (key ++ [AM] ++ new_raw ++ [LF]) = key ++ [AM] ++ new_raw.
Proof.
  intros Hkey Hraw.
  replace (key ++ [AM] ++ new_raw ++ [LF])
    with ((key ++ [AM] ++ new_raw) ++ [LF]) by by rewrite <- !app_assoc.
  rewrite strip_snoc by apply isspace_LF. apply strip_clean.
  - rewrite app_assoc. apply (starts_clean_app _ []); [by destruct key|].
    by rewrite app_nil_r.
  - rewrite app_assoc, rev_app_distr, rev_unit.
    destruct new_raw as [|c new_raw _] using rev_ind; [reflexivity|].
    rewrite rev_unit. simpl.
    unfold rstrip in Hraw. rewrite rev_unit in Hraw. simpl in Hraw.
    destruct (isspace c) eqn:Hc; [|done].
    apply (f_equal (@length ascii)) in Hraw.
    rewrite length_rev, length_app in Hraw. simpl in Hraw.
    assert (length (lstrip (rev new_raw)) ≤ length new_raw)%nat; [|lia].
    rewrite <- (length_rev new_raw). generalize (rev new_raw). clear.
    intros s. induction s as [|a s IH]; simpl; [done|].
    destruct (isspace a); simpl; lia.
Qed.

Lemma read_lines_rewritten key new_raw lines :
  AM ∉ key →
  strip (key ++ [AM] ++ new_raw ++ [LF]) = key ++ [AM] ++ new_raw →
  Exists (λ line, key_line key line = true) lines →
  read_lines key
    (map (λ line, if key_line key line then key ++ [AM] ++ new_raw ++ [LF]
                  else line) lines)
  = Ok (init (Some key) (Some new_raw)).
Proof.
  intros Hkey Hstrip.
  assert (key_line key (key ++ [AM] ++ new_raw ++ [LF]) = true) as Hline.
  { unfold key_line. rewrite Hstrip, app_assoc. apply startswith_app. }
  assert (split_once AM (strip (key ++ [AM] ++ new_raw ++ [LF]))
          = [key; new_raw]) as Hsplit.
  { rewrite Hstrip. by apply split_once_app. }
  induction lines as [|line lines IH]; [by intros ?%Exists_nil|].
  intros Hex. cbn [map]. destruct (key_line key line) eqn:Hk.
  - by eapply read_lines_match.
  - rewrite read_lines_skip by done. apply IH.
    apply Exists_cons in Hex as [Hex|Hex]; [congruence | done].
Qed.

End Roundtrip.

(** C3 (as the code has it): let a record be found by [read] under a
    non-empty key without attribute mark, and let an update map give
    distinct positive positions values whose rendering holds no attribute
    mark and no line break, such that the new raw attribute string does not
    end in whitespace.  Then [update] succeeds, and reading the key again
    and extracting each updated position returns the supplied value:
    a scalar as its string form, a sequence joined by the value mark. *)
Theorem update_read_roundtrip (fs : FS) (key : str) (r : PickRecord)
    (m : attribute_map) :
  read fs key = Ok r → raw_data r ≠ None →
  key ≠ [] → AM ∉ key →
  NoDup (map fst m) →
  Forall (λ kv, 0 < kv.1 ∧ attribute_safe (render kv.2)) m →
  (∀ attrs, new_attributes r m = Ok attrs →
            rstrip (join AM attrs) = join AM attrs) →
  ∃ fs' r' r2,
    update fs r m = Ok (fs', r')
    ∧ read fs' key = Ok r2
    ∧ Forall (λ kv, extract r2 kv.1 None None = render kv.2) m.
Proof.
  intros Hread Hfound Hne Hkey Hnodup Hm Hend.
  unfold read in Hread. destruct (data_file fs) as [content|] eqn:Hfile;
    [|by injection Hread as <-].
  destruct (read_lines_cases key (readlines content))
    as [[_ Hr]|(before & line & after & pre & raw
                & Hlines & Hbefore & Hline & Hstrip & Hpre & Hr)];
    rewrite Hr in Hread; injection Hread as <-; [done|]. clear Hfound Hr.
  assert (pre = key) as -> by by eapply key_line_raw.
  (* the stripped line, hence the key and the old attributes, hold no LF *)
  assert (LF ∉ strip line) as Hlf.
  { apply (text_lines_strip (readlines content)).
    - apply readlines_text_lines.
    - rewrite Hlines. apply elem_of_app. right. by left. }
  rewrite Hstrip in Hlf. apply not_elem_of_app in Hlf as [Hlfkey Hlfraw].
  apply not_elem_of_cons in Hlfraw as [_ Hlfraw].
  assert (starts_clean (key ++ [AM])) as Hclean.
  { pose proof (strip_starts_clean line) as Hs. rewrite Hstrip in Hs.
    apply (starts_clean_app _ (AM :: raw)); [done|]. by destruct key. }
  (* the new attribute list *)
  set (r := init (Some key) (Some raw)) in *.
  destruct (new_attributes_positive r m) as (attrs & Hattrs & HP & Hset).
  { eapply Forall_impl; [exact Hm|]. by intros ? [? _]. }
  specialize (Hset Hnodup). specialize (Hend attrs Hattrs).
  assert (Forall (λ x : str, (AM ∉ x) ∧ (LF ∉ x)) attrs) as Hsafe.
  { apply HP.
    - subst r. simpl. destruct (truthy raw); [|constructor].
      pose proof (split_no_sep AM raw) as Ham.
      apply not_elem_of_Forall in Hlfraw.
      pose proof (split_Forall _ AM raw Hlfraw) as Hl.
      rewrite Forall_forall in Ham, Hl |- *. intros x Hx.
      split; [by apply Ham | by apply not_elem_of_Forall, Hl].
    - split; apply not_elem_of_nil.
    - eapply Forall_impl; [exact Hm|]. by intros ? [_ (? & ? & _)]. }
  assert (LF ∉ join AM attrs) as Hlfnew.
  { apply not_elem_of_Forall, join_forall; [done|].
    eapply Forall_impl; [exact Hsafe|].
    intros x [_ Hx]. by apply not_elem_of_Forall. }
  pose proof (updated_line_strip key (join AM attrs) Hclean Hend) as Hustrip.
  (* the update and the file it leaves *)
  eexists _, _, (init (Some key) (Some (join AM attrs))). split_and!.
  - by apply (update_ok fs r m key content attrs).
  - unfold read, rewrite_lines. cbn [data_file].
    rewrite readlines_concat.
    + apply read_lines_rewritten; [done | done |].
      rewrite Hlines. apply Exists_app. right. by left.
    + apply (text_lines_map _ (key ++ [AM] ++ join AM attrs ++ [LF])).
      * exists (key ++ [AM] ++ join AM attrs).
        split; [by rewrite <- !app_assoc|].
        rewrite !not_elem_of_app. split_and!; [done | | done].
        intros ?%list_elem_of_singleton. done.
      * intros l. destruct (key_line key l); auto.
      * apply readlines_text_lines.
  - rewrite Forall_forall in Hset, Hm |- *. intros [k v] Hin.
    specialize (Hset _ Hin). destruct (Hm _ Hin) as [Hk _]. simpl in *.
    destruct (truthy (join AM attrs)) eqn:Htruthy.
    + apply extract_whole; [done|]. unfold init. cbn [attributes].
      rewrite Htruthy, split_join; [done | | ].
      * intros ->. done.
      * eapply Forall_impl; [exact Hsafe|]. by intros ? [? _].
    + assert (join AM attrs = []) as Hjoin by by destruct (join AM attrs).
      rewrite Hjoin. apply join_nil_inv in Hjoin.
      rewrite Forall_forall in Hjoin.
      rewrite (Hjoin (render v)) by by eapply list_elem_of_lookup_2.
      unfold extract. simpl. by rewrite in_range_false by (right; simpl; lia).
Qed.

Lemma update_read_roundtrip_witness :
  ∃ fs' r' r2,
    update test_fs (found test_fs ("102" : str))
      [(1, Scalar (SStr ("Jane Doe" : str)));
       (2, Seq [SStr ("999.99" : str); SStr ("0.00" : str)])]
    = Ok (fs', r')
    ∧ read fs' ("102" : str) = Ok r2
    ∧ Forall (λ kv, extract r2 kv.1 None None = render kv.2)
        [(1, Scalar (SStr ("Jane Doe" : str)));
         (2, Seq [SStr ("999.99" : str); SStr ("0.00" : str)])].
Proof.
  apply (update_read_roundtrip test_fs ("102" : str)
           (found test_fs ("102" : str))).
  - by vm_compute.
  - done.
  - done.
  - compute_done.
  - compute_done.
  - unfold attribute_safe. compute_done.
  - intros attrs Hattrs. vm_compute in Hattrs. injection Hattrs as <-.
    by vm_compute.
Defined.

(** A value that holds the attribute mark does not come back: the mark
    splits it over two attributes. *)
Lemma update_read_roundtrip_counterexample :
  ∃ r fs' r' r2,
    read test_fs ("102" : str) = Ok r
    ∧ raw_data r ≠ None
    ∧ update test_fs r [(1, Scalar (SStr ("J^D" : str)))] = Ok (fs', r')
    ∧ read fs' ("102" : str) = Ok r2
    ∧ extract r2 1 None None = ("J" : str)
    ∧ extract r2 1 None None ≠ render (Scalar (SStr ("J^D" : str))).
Proof.
  eexists _, _, _, _. split_and!; [by vm_compute | done | by vm_compute
    | by vm_compute | by vm_compute | by vm_compute].
Qed.

(** Trailing whitespace in the last attribute is lost as well: [read] strips
    the line. *)
Example update_read_trailing_space :
  ∃ r fs' r' r2,
    read test_fs ("102" : str) = Ok r
    ∧ update test_fs r [(3, Scalar (SStr ("2024 " : str)))] = Ok (fs', r')
    ∧ read fs' ("102" : str) = Ok r2
    ∧ extract r2 3 None None = ("2024" : str).
Proof. eexists _, _, _, _. split_and!; by vm_compute. Qed.

(** The read-back checked by the repository's tests. *)
Example update_test_data :
  ∃ fs' r' r2,
    update test_fs (found test_fs ("102" : str))
      [(1, Scalar (SStr ("Jane Doe" : str)));
       (2, Seq [SStr ("999.99" : str); SStr ("0.00" : str)])]
    = Ok (fs', r')
    ∧ bak_file fs' = Some test_data
    ∧ read fs' ("102" : str) = Ok r2
    ∧ extract r2 1 None None = ("Jane Doe" : str)
    ∧ extract r2 2 (Some 1) None = ("999.99" : str).
Proof. eexists _, _, _. split_and!; by vm_compute. Qed.

(** ** The projection [to_json] *)

Section ProjectionFacts.

Context `{Coercions}.

Implicit Types (pb pd : list pyobj) (t : dict pyobj) (i : nat).

Lemma to_json_present (r : PickRecord) (parse_numbers parse_dates : bool)
    (latest_balance : str) :
  present (raw_data r) = true →
  ∃ p, to_json r parse_numbers parse_dates latest_balance = Some p.
Proof. intros Hp. unfold to_json. rewrite Hp. by eexists. Qed.

Lemma pair_transactions_length pb pd :
  length (pair_transactions pb pd) = Nat.max (length pb) (length pd).
Proof. unfold pair_transactions. by rewrite length_map, length_seq. Qed.

(** In the list built by the pairing loop a field is there exactly when
    its list reaches the index. *)
Lemma make_tx_fields pb pd i :
  dict_get (make_tx pb pd i) "amount" = pb !! i
  ∧ dict_get (make_tx pb pd i) "date" = pd !! i.
Proof.
  unfold make_tx. repeat case_bool_decide;
    repeat match goal with
      | Hlt : ¬ (_ < _)%nat |- _ =>
          apply Nat.nlt_ge, lookup_ge_None in Hlt; rewrite Hlt
      end;
    destruct (pb !! i), (pd !! i); done.
Qed.

(** The returned entries, however, always carry both fields. *)
Lemma render_tx_fields t :
  dict_get (render_tx t) "amount" = Some (py_str (dict_get t "amount"))
  ∧ dict_get (render_tx t) "date" = Some (py_str (dict_get t "date")).
Proof. done. Qed.

Lemma select_balance_spec (latest_balance : str) pb :
  select_balance latest_balance pb
  = if decide (latest_balance = ("first" : str)) then head pb else last pb.
Proof.
  unfold select_balance, str_eqb. destruct pb as [|x pb].
  - by destruct (decide _).
  - rewrite bool_decide_decide. by destruct (decide _).
Qed.

Lemma map_head {A B} (f : A → B) (l : list A) : head (map f l) = f <$> head l.
Proof. by destruct l. Qed.

Lemma map_last {A B} (f : A → B) (l : list A) : last (map f l) = f <$> last l.
Proof.
  induction l as [|x l IH]; [done|]. destruct l; [done|].
  exact IH.
Qed.

(** Shape of the returned transaction list: one entry per index up to the
    longer of the two rendered lists, each entry with both fields. *)
Lemma transactions_shape (r : PickRecord) (parse_numbers parse_dates : bool)
    (latest_balance : str) (p : Projection) :
  to_json r parse_numbers parse_dates latest_balance = Some p →
  length (transactions p)
  = Nat.max (length (legacy_balances_history p)) (length (transaction_dates p))
  ∧ Forall
      (λ e : dict str,
         is_Some (dict_get e "amount") ∧ is_Some (dict_get e "date"))
      (transactions p).
Proof.
  unfold to_json. destruct (negb _); [done|]. intros [= <-].
  cbn [transactions legacy_balances_history transaction_dates]. split.
  - by rewrite !length_map, pair_transactions_length, !length_map.
  - rewrite Forall_forall. intros e He.
    apply list_elem_of_In, in_map_iff in He as (t0 & <- & _).
    split; by eexists.
Qed.

End ProjectionFacts.

(** C1, evaluated on the code: a record with three balances and two dates
    (the middle value of attribute 3 is empty) is projected to three
    transactions, and the third one does have a [date] field: it holds the
    string "None". *)
Theorem transactions_padded `{Coercions} (parse_numbers parse_dates : bool)
    (latest_balance : str) :
  ∃ p t,
    to_json (init (Some ("200" : str))
               (Some ("Name^10]20]30^2024-01-01]]2024-01-03" : str)))
      parse_numbers parse_dates latest_balance = Some p
    ∧ length (legacy_balances_history p) = 3%nat
    ∧ length (transaction_dates p) = 2%nat
    ∧ length (transactions p) = 3%nat
    ∧ transactions p !! 2%nat = Some t
    ∧ dict_get t "date" = Some ("None" : str).
Proof.
  eexists _, _. split_and!; [reflexivity | done | done | done | reflexivity|].
  reflexivity.
Qed.

(** C8: when the record has data, the projection exists; its balance
    history is the rendered list of the non-empty values of attribute 2,
    and the current balance is absent when that list is empty, its first
    element under the policy "first", and its last element under any other
    policy. *)
Theorem current_balance_selection `{Coercions} (r : PickRecord)
    (parse_numbers parse_dates : bool) (latest_balance : str) :
  present (raw_data r) = true →
  ∃ p,
    to_json r parse_numbers parse_dates latest_balance = Some p
    ∧ legacy_balances_history p
      = map (λ b, py_str (Some (parse_balance parse_numbers b)))
          (filter (λ x, x ≠ []) (split VM (extract r 2 None None)))
    ∧ current_balance p
      = match legacy_balances_history p with
        | [] => None
        | first :: _ =>
            if decide (latest_balance = ("first" : str)) then Some first
            else last (legacy_balances_history p)
        end.
Proof.
  intros Hp. unfold to_json. rewrite Hp. eexists. split; [reflexivity|].
  cbn [legacy_balances_history current_balance]. split.
  - rewrite map_map. f_equal. unfold multivalues.
    by destruct (extract r 2 None None).
  - rewrite select_balance_spec.
    set (pb := map (parse_balance parse_numbers) _).
    destruct (decide _).
    + by destruct pb.
    + rewrite map_last. destruct pb as [|x pb]; [done|].
      by destruct (last (x :: pb)).
Qed.

Lemma current_balance_selection_witness :
  ∃ p,
    @to_json no_coercions (found test_fs ("101" : str)) true true ("last" : str)
    = Some p
    ∧ legacy_balances_history p
      = [("2500.00" : str); ("400.00" : str); ("12.50" : str)]
    ∧ current_balance p = Some ("12.50" : str).
Proof.
  destruct (@current_balance_selection no_coercions
              (found test_fs ("101" : str)) true true ("last" : str))
    as (p & Hjson & Hhist & Hcur); [done|].
  exists p. split; [done|].
  assert (legacy_balances_history p
          = [("2500.00" : str); ("400.00" : str); ("12.50" : str)]) as Hh.
  { rewrite Hhist. by vm_compute. }
  split; [done|]. rewrite Hcur, Hh. by vm_compute.
Defined.

(** The selections checked by the repository's tests. *)
Example current_balance_test_data :
  (current_balance <$>
     @to_json no_coercions (found test_fs ("101" : str)) false false
       ("last" : str)) = Some (Some ("12.50" : str))
  ∧ (current_balance <$>
       @to_json no_coercions (found test_fs ("101" : str)) false false
         ("first" : str)) = Some (Some ("2500.00" : str)).
Proof. by vm_compute. Qed.

(** ** The endpoints *)

Lemma read_is_init (fs : FS) (key : str) (r : PickRecord) :
  read fs key = Ok r → r = init (Some key) (raw_data r).
Proof.
  unfold read. destruct (data_file fs) as [content|].
  - destruct (read_lines_cases key (readlines content))
      as [[_ ->]|(? & ? & ? & ? & raw & _ & _ & _ & _ & _ & ->)];
      by intros [= <-].
  - by intros [= <-].
Qed.

(** C10: a record read with an empty [raw_data] is not found for the
    projection path: [to_json] returns [None], the GET endpoint answers with
    the 404 not-found response, and the record, like any record constructed
    from the empty string, has an empty attribute list. *)
Theorem empty_raw_data_not_found `{Coercions} (fs : FS) (req : App.request)
    (key : str) (r : PickRecord) (parse_numbers parse_dates : bool)
    (latest_balance : str) :
  read fs key = Ok r → raw_data r = Some [] →
  to_json r parse_numbers parse_dates latest_balance = None
  ∧ App.get_legacy_client fs req key = Ok (App.not_found req)
  ∧ snd (App.not_found req) = 404
  ∧ attributes r = []
  ∧ attributes (init (Some key) (Some [])) = [].
Proof.
  intros Hread Hraw. split_and!.
  - unfold to_json. by rewrite Hraw.
  - unfold App.get_legacy_client. rewrite Hread.
    cbn [mbind result_bind bind]. by rewrite Hraw.
  - done.
  - rewrite (read_is_init _ _ _ Hread), Hraw. done.
  - done.
Qed.

Lemma empty_raw_data_not_found_witness :
  let req := App.mkRequest ("/get_legacy_client/105" : str) None None None in
  let r := init (Some ("105" : str)) (Some []) in
  read bare_fs ("105" : str) = Ok r
  ∧ @to_json no_coercions r true true ("last" : str) = None
  ∧ @App.get_legacy_client no_coercions bare_fs req ("105" : str)
    = Ok (App.NotFound ("Not found /get_legacy_client/105" : str), 404)
  ∧ attributes r = [].
Proof.
  intros req r.
  destruct (@empty_raw_data_not_found no_coercions bare_fs req ("105" : str) r
              true true ("last" : str))
    as (Hjson & Hget & _ & Hattrs & _); [by vm_compute | done |].
  split_and!; [by vm_compute | done | | done].
  rewrite Hget. by vm_compute.
Defined.

(** A key on which [int] raises is answered with status 400 and a message
    that names it; [update] is not reached, and the store stays as it is. *)
Lemma validate_invalid (attr_map : attribute_map) (data : App.json_object)
    (k : str) :
  App.validate attr_map data = inl k →
  int k = None ∧ ∃ v, (k, v) ∈ data.
Proof.
  revert attr_map. induction data as [|[k' v'] data IH]; intros attr_map; [done|].
  cbn [App.validate]. destruct (int k') eqn:Hint.
  - intros (Hk & v & Hin)%IH. split; [done|]. exists v. by right.
  - intros [= <-]. split; [done|]. exists v'. by left.
Qed.

Lemma invalid_key_rejected (fs : FS) (req : App.request) (client_id : str)
    (record : PickRecord) (data : App.json_object) (k : str) :
  data ≠ [] →
  read fs client_id = Ok record → present (raw_data record) = true →
  App.validate [] data = inl k →
  App.update_legacy_client fs req client_id (Some data)
  = (App.Message (App.invalid_key_message k), 400, fs).
Proof.
  intros Hdata Hread Hpresent Hval. unfold App.update_legacy_client.
  destruct data; [done|]. by rewrite Hread, Hpresent, Hval.
Qed.

(** C7, evaluated on the code: the key "0" parses as an integer, so it
    passes the validation although it is not positive; [update] is called,
    overwrites the last attribute of the record (Python's index -1), and
    the request is answered with status 200. *)
Theorem update_accepts_key_zero (req : App.request) :
  int ("0" : str) = Some 0
  ∧ App.validate [] [(("0" : str), Scalar (SStr ("X" : str)))]
    = inr [(0, Scalar (SStr ("X" : str)))]
  ∧ App.update_legacy_client test_fs req ("103" : str)
      (Some [(("0" : str), Scalar (SStr ("X" : str)))])
    = (App.Message ("Legacy record updated successfully" : str), 200,
       {| data_file :=
            Some (("101^John Doe^2500.00]400.00]12.50^2023-11-01]2023-12-01]2024-01-15"
                     ++ [LF])
                  ++ ("102^Jane Smith^150.00]800.00^2024-02-10]2024-03-15" ++ [LF])
                  ++ ("103^Alex Chen^9800.00^^X" ++ [LF])
                  ++ ("104^Lisa Wong^100.00]50.00^2024-05-01]2024-05-15]2024-06-01]2024-06-15"
                        ++ [LF]));
          bak_file := Some test_data |}).
Proof. split_and!; by vm_compute. Qed.

(** A negative key passes the validation too; here it reaches before the
    first attribute, and the [IndexError] of [update] becomes status 500. *)
Example update_negative_key (req : App.request) :
  App.update_legacy_client test_fs req ("103" : str)
    (Some [(("-9" : str), Scalar (SStr ("X" : str)))])
  = (App.Failure ("Error updating legacy record" : str) IndexError, 500,
     test_fs).
Proof. by vm_compute. Qed.

Example update_invalid_key (req : App.request) :
  App.update_legacy_client test_fs req ("103" : str)
    (Some [(("1" : str), Scalar (SStr ("X" : str)));
           (("a" : str), Scalar (SStr ("Y" : str)))])
  = (App.Message ("Invalid attribute key: a (must be integer)" : str), 400,
     test_fs).
Proof. by vm_compute. Qed.

(** * Further properties of the record model *)

(** ** Selection by position *)

Section Selection.

Implicit Types (r : PickRecord) (attr val x : str).

Lemma lookup_map {A B} (f : A → B) (l : list A) (i : nat) :
  map f l !! i = f <$> l !! i.
Proof.
  revert i. induction l as [|a l IH]; intros [|i]; simpl; done.
Qed.

Lemma at_pos_map {A B} (f : A → B) (l : list A) (pos : Z) :
  at_pos (map f l) pos = f <$> at_pos l pos.
Proof. unfold at_pos. destruct (1 <=? pos); [apply lookup_map | done]. Qed.

Lemma at_pos_positive {A} (l : list A) (pos : Z) (x : A) :
  at_pos l pos = Some x → 1 <= pos.
Proof. unfold at_pos. destruct (1 <=? pos) eqn:Hp; [zbool; lia | done]. Qed.

Lemma at_pos_elem_of {A} (l : list A) (pos : Z) (x : A) :
  at_pos l pos = Some x → x ∈ l.
Proof.
  unfold at_pos. destruct (1 <=? pos); [|done].
  apply list_elem_of_lookup_2.
Qed.

Lemma given_positive (pos : Z) : 1 <= pos → given (Some pos) = Some pos.
Proof.
  intros Hp. unfold given. destruct (pos =? 0) eqn:Hz; [zbool; lia | done].
Qed.

(** What [extract] returns when every position it is given selects
    something. *)
Lemma extract_attribute r a attr :
  at_pos (attributes r) a = Some attr → extract r a None None = attr.
Proof.
  intros Ha. apply extract_whole; [|by apply at_pos_in_range in Ha as [_ ?]].
  apply at_pos_positive in Ha. lia.
Qed.

Lemma extract_value r a v attr val :
  at_pos (attributes r) a = Some attr → attr ≠ [] →
  at_pos (split VM attr) v = Some val →
  extract r a (Some v) None = val.
Proof.
  intros [Hr Ha]%at_pos_in_range Hne Hv.
  pose proof (at_pos_positive _ _ _ Hv) as Hpos.
  apply at_pos_in_range in Hv as [Hrv Hv].
  unfold extract. rewrite Hr, Ha. cbv beta iota zeta.
  destruct attr; [done|]. cbn [truthy negb].
  by rewrite given_positive, Hrv, Hv by done.
Qed.

Lemma extract_subvalue r a v s attr val x :
  at_pos (attributes r) a = Some attr → attr ≠ [] →
  at_pos (split VM attr) v = Some val →
  at_pos (split SM val) s = Some x →
  extract r a (Some v) (Some s) = x.
Proof.
  intros [Hr Ha]%at_pos_in_range Hne Hv Hs.
  pose proof (at_pos_positive _ _ _ Hv) as Hpos.
  pose proof (at_pos_positive _ _ _ Hs) as Hspos.
  apply at_pos_in_range in Hv as [Hrv Hv].
  apply at_pos_in_range in Hs as [Hrs Hs].
  unfold extract. rewrite Hr, Ha. cbv beta iota zeta.
  destruct attr; [done|]. cbn [truthy negb].
  rewrite given_positive, Hrv, Hv by done. cbv beta iota zeta.
  rewrite given_positive, Hrs by done.
  exact (f_equal (default []) Hs).
Qed.

Lemma join_mark_free (P : ascii → Prop) sep (l : list str) :
  P sep → Forall (Forall P) l → Forall P (join sep l).
Proof. apply join_forall. Qed.

End Selection.

(** X1: a record that [read] did not find answers every [extract] with the
    empty string. *)
Theorem extract_not_found (fs : FS) (key : str) (r : PickRecord)
    (attribute_pos : Z) (value_pos subvalue_pos : option Z) :
  read fs key = Ok r → raw_data r = None →
  extract r attribute_pos value_pos subvalue_pos = [].
Proof.
  intros Hread Hraw. rewrite (read_is_init _ _ _ Hread), Hraw.
  unfold extract. simpl. destruct (in_range _ _) eqn:Hr; [|done].
  apply in_range_true in Hr. simpl in Hr. lia.
Qed.

Lemma extract_not_found_witness :
  extract (not_found_record ("999" : str)) 2 (Some 1) (Some 1) = [].
Proof.
  apply (extract_not_found test_fs ("999" : str)); by vm_compute.
Defined.

(** ** [extract] against the encoding of a dynamic array *)

Section Encoding.

Implicit Types (subvalues : list str) (values : list (list str))
  (attrs : list (list (list str))).

Lemma join_avoids (c sep : ascii) (l : list str) :
  c ≠ sep → Forall (λ x, c ∉ x) l → c ∉ join sep l.
Proof.
  intros Hc Hl. apply not_elem_of_Forall, join_forall; [done|].
  eapply Forall_impl; [exact Hl|]. intros x Hx. by apply not_elem_of_Forall.
Qed.

Lemma join_nil_at sep (l : list str) (pos : Z) (x : str) :
  join sep l = [] → at_pos l pos = Some x → x = [].
Proof.
  intros Hj%join_nil_inv Hx%at_pos_elem_of.
  rewrite Forall_forall in Hj. by apply Hj.
Qed.

Lemma split_encode_value subvalues :
  subvalues ≠ [] → Forall mark_free subvalues →
  split SM (encode_value subvalues) = subvalues.
Proof.
  intros Hne Hfree. apply split_join; [done|].
  eapply Forall_impl; [exact Hfree|]. by intros x (_ & _ & ?).
Qed.

Lemma encode_value_free subvalues :
  Forall mark_free subvalues →
  (AM ∉ encode_value subvalues) ∧ (VM ∉ encode_value subvalues).
Proof.
  intros Hfree. split; (apply join_avoids; [done|]);
    (eapply Forall_impl; [exact Hfree|]); by intros x (? & ? & _).
Qed.

Lemma split_encode_attribute values :
  values ≠ [] → Forall (λ subvalues, Forall mark_free subvalues) values →
  split VM (encode_attribute values) = map encode_value values.
Proof.
  intros Hne Hfree. apply split_join; [by destruct values|].
  apply List.Forall_map. eapply Forall_impl; [exact Hfree|].
  intros x Hx. by apply encode_value_free.
Qed.

Lemma encode_attribute_free values :
  Forall (λ subvalues, Forall mark_free subvalues) values →
  AM ∉ encode_attribute values.
Proof.
  intros Hfree. apply join_avoids; [done|].
  apply List.Forall_map. eapply Forall_impl; [exact Hfree|].
  intros x Hx. by apply encode_value_free.
Qed.

Lemma extract_empty_attribute (r : PickRecord) (a : Z) (v s : option Z) :
  at_pos (attributes r) a = Some [] → extract r a v s = [].
Proof.
  intros [Hr Ha]%at_pos_in_range. unfold extract. by rewrite Hr, Ha.
Qed.

End Encoding.

(** X2: [extract] decodes what the three marks encode.  For a well-formed
    dynamic array joined into a raw string, extracting at positions that
    exist returns the attribute, the value and the subvalue at those
    positions. *)
Theorem extract_encoded (key : option str) (attrs : list (list (list str)))
    (a v s : Z) (values : list (list str)) (subvalues : list str) (x : str) :
  well_formed_array attrs →
  at_pos attrs a = Some values →
  at_pos values v = Some subvalues →
  at_pos subvalues s = Some x →
  extract (init key (Some (encode_record attrs))) a None None
    = encode_attribute values
  ∧ extract (init key (Some (encode_record attrs))) a (Some v) None
    = encode_value subvalues
  ∧ extract (init key (Some (encode_record attrs))) a (Some v) (Some s) = x.
Proof.
  intros Hwf Ha Hv Hs. unfold well_formed_array in Hwf.
  assert (values ≠ []
          ∧ Forall (λ subs : list str, subs ≠ [] ∧ Forall mark_free subs) values)
    as [Hvne Hvals].
  { rewrite Forall_forall in Hwf. by eapply Hwf, at_pos_elem_of. }
  assert (subvalues ≠ [] ∧ Forall mark_free subvalues) as [Hsne Hsubs].
  { rewrite Forall_forall in Hvals. by eapply Hvals, at_pos_elem_of. }
  assert (Forall (λ subs : list str, Forall mark_free subs) values) as Hvfree.
  { eapply Forall_impl; [exact Hvals|]. by intros ? [_ ?]. }
  set (r := init key (Some (encode_record attrs))).
  destruct (truthy (encode_record attrs)) eqn:Htruthy.
  - assert (attributes r = map encode_attribute attrs) as Hattrs.
    { subst r. unfold init. cbn [attributes]. rewrite Htruthy.
      apply split_join.
      - destruct attrs; [|done]. by destruct a.
      - apply List.Forall_map. eapply Forall_impl; [exact Hwf|].
        intros vs [_ Hvs]. apply encode_attribute_free.
        eapply Forall_impl; [exact Hvs|]. by intros ? [_ ?]. }
    assert (at_pos (attributes r) a = Some (encode_attribute values)) as Hattr.
    { by rewrite Hattrs, at_pos_map, Ha. }
    split; [by apply extract_attribute|].
    destruct (encode_attribute values) as [|c attr] eqn:Henc.
    + pose proof (join_nil_at _ _ _ _ Henc
                    (eq_trans (at_pos_map _ _ _) (f_equal _ Hv))) as Hval.
      rewrite Hval, !extract_empty_attribute by done.
      split; [done|]. symmetry. by eapply join_nil_at.
    + assert (at_pos (split VM (c :: attr)) v = Some (encode_value subvalues))
        as Hval.
      { rewrite <- Henc, split_encode_attribute, at_pos_map, Hv; done. }
      split; [by eapply extract_value|].
      eapply extract_subvalue; [done | done | done |].
      by rewrite split_encode_value.
  - assert (encode_record attrs = []) as Hnil by by destruct (encode_record _).
    assert (attributes r = []) as Hattrs.
    { subst r. unfold init. cbn [attributes]. by rewrite Htruthy. }
    assert (∀ v' s', extract r a v' s' = []) as Hex.
    { intros v' s'. unfold extract. rewrite Hattrs.
      destruct (in_range _ _) eqn:Hr; [|done].
      apply in_range_true in Hr. simpl in Hr. lia. }
    rewrite !Hex.
    pose proof (join_nil_at _ _ _ _ Hnil
                  (eq_trans (at_pos_map _ _ _) (f_equal _ Ha))) as Hattr.
    pose proof (join_nil_at _ _ _ _ Hattr
                  (eq_trans (at_pos_map _ _ _) (f_equal _ Hv))) as Hval.
    split_and!; [done | done |]. symmetry. by eapply join_nil_at.
Qed.

Lemma extract_encoded_witness :
  let attrs : list (list (list str)) :=
    [[[("Name" : str)]];
     [[("A" : str)]; [("B" : str); ("S1" : str); ("S2" : str)]];
     [[("100" : str)]]] in
  encode_record attrs = ("Name^A]B\S1\S2^100" : str)
  ∧ extract (init (Some ("900" : str)) (Some (encode_record attrs)))
      2 (Some 2) (Some 3) = ("S2" : str).
Proof.
  intros attrs. split; [by vm_compute|].
  apply (extract_encoded (Some ("900" : str)) attrs 2 2 3
           [[("A" : str)]; [("B" : str); ("S1" : str); ("S2" : str)]]
           [("B" : str); ("S1" : str); ("S2" : str)] ("S2" : str));
    [|done..].
  unfold well_formed_array, mark_free.
  repeat (constructor; [split; [done|]|]); repeat constructor;
    compute_done.
Defined.

(** ** What [read] returns *)

Section ReadShape.

Implicit Types (key line raw : str).

Lemma lstrip_nonspace (a b : str) (c : ascii) :
  isspace c = false → lstrip (a ++ c :: b) = lstrip a ++ c :: b.
Proof.
  intros Hc. induction a as [|x a IH]; simpl.
  - by rewrite Hc.
  - by destruct (isspace x).
Qed.

(** [rstrip] stops at the last character that is not whitespace. *)
Lemma rstrip_nonspace (p t : str) (c : ascii) :
  isspace c = false → rstrip (p ++ c :: t) = p ++ c :: rstrip t.
Proof.
  intros Hc. unfold rstrip.
  rewrite rev_app_distr. simpl. rewrite <- app_assoc. simpl.
  rewrite lstrip_nonspace by done.
  rewrite rev_app_distr. simpl. by rewrite rev_involutive, <- app_assoc.
Qed.

Lemma rstrip_suffix_clean (p t : str) :
  starts_clean (rev (p ++ t)) → rstrip t = t.
Proof.
  rewrite rev_app_distr. intros Hclean. unfold rstrip.
  rewrite lstrip_clean, rev_involutive; [done|].
  destruct (rev t); [done|]. exact Hclean.
Qed.

End ReadShape.

Lemma read_key (fs : FS) (key : str) (r : PickRecord) :
  read fs key = Ok r → record_key r = Some key.
Proof. intros Hread. by rewrite (read_is_init _ _ _ Hread). Qed.

Lemma read_raw_shape (fs : FS) (key : str) (r : PickRecord) (raw : str) :
  read fs key = Ok r → raw_data r = Some raw →
  (LF ∉ raw) ∧ rstrip raw = raw.
Proof.
  intros Hread. unfold read in Hread.
  destruct (data_file fs) as [content|]; [|by injection Hread as <-].
  destruct (read_lines_cases key (readlines content))
    as [[_ Hr]|(before & line & after & pre & raw'
                & Hlines & _ & _ & Hstrip & _ & Hr)];
    rewrite Hr in Hread; injection Hread as <-; [done|].
  intros [= <-]. split.
  - assert (LF ∉ strip line) as Hlf.
    { apply (text_lines_strip (readlines content)).
      - apply readlines_text_lines.
      - rewrite Hlines. apply elem_of_app. right. by left. }
    rewrite Hstrip in Hlf. apply not_elem_of_app in Hlf as [_ Hlf].
    by apply not_elem_of_cons in Hlf as [_ Hlf].
  - apply (rstrip_suffix_clean (pre ++ [AM])).
    rewrite <- app_assoc. simpl. rewrite <- Hstrip. apply strip_ends_clean.
Qed.

Lemma read_attributes_free (fs : FS) (key : str) (r : PickRecord) :
  read fs key = Ok r →
  Forall (λ x : str, (AM ∉ x) ∧ (LF ∉ x)) (attributes r).
Proof.
  intros Hread.
  pose proof (λ raw, read_raw_shape _ _ _ raw Hread) as Hraw.
  rewrite (read_is_init _ _ _ Hread) in *. simpl in *.
  destruct (raw_data r) as [raw|]; [|constructor].
  destruct (truthy raw); [|constructor].
  destruct (Hraw raw eq_refl) as [Hlf _].
  pose proof (split_no_sep AM raw) as Ham.
  apply not_elem_of_Forall in Hlf.
  pose proof (split_Forall _ AM raw Hlf) as Hl.
  rewrite Forall_forall in Ham, Hl |- *. intros x Hx.
  split; [by apply Ham | by apply not_elem_of_Forall, Hl].
Qed.

(** X3: the record that [read] returns carries the key it was asked for;
    none of its attributes holds an attribute mark or a line feed, and its
    [raw_data], when present, holds no line feed and does not end in
    whitespace. *)
Theorem read_record_shape (fs : FS) (key : str) (r : PickRecord) :
  read fs key = Ok r →
  record_key r = Some key
  ∧ Forall (λ x : str, (AM ∉ x) ∧ (LF ∉ x)) (attributes r)
  ∧ (∀ raw, raw_data r = Some raw → (LF ∉ raw) ∧ rstrip raw = raw).
Proof.
  intros Hread. split_and!.
  - by eapply read_key.
  - by eapply read_attributes_free.
  - intros raw Hraw. by eapply read_raw_shape.
Qed.

Lemma read_record_shape_witness :
  record_key (found test_fs ("103" : str)) = Some ("103" : str)
  ∧ Forall (λ x : str, (AM ∉ x) ∧ (LF ∉ x))
      [("Alex Chen" : str); ("9800.00" : str); []; ("2024-04-20" : str)].
Proof.
  destruct (read_record_shape test_fs ("103" : str)
              (found test_fs ("103" : str))) as (Hkey & Hattrs & _);
    [by vm_compute|].
  split; [done|]. exact Hattrs.
Defined.

Lemma key_line_same_key (key key' line : str) :
  AM ∉ key → AM ∉ key' →
  key_line key line = true → key_line key' line = true → key = key'.
Proof.
  intros Hkey Hkey' Hline Hline'.
  destruct (key_line_split _ _ Hline) as (pre & raw & Hs & Hpre & _).
  rewrite <- (key_line_raw key line pre raw) by done.
  by rewrite <- (key_line_raw key' line pre raw).
Qed.

(** X4: a line belongs to one key at most.  Of two different keys without
    attribute mark, such as 10 and 101, a line of the one is not a line of
    the other. *)
Theorem key_line_exclusive (key key' line : str) :
  AM ∉ key → AM ∉ key' → key ≠ key' →
  key_line key line = true → key_line key' line = false.
Proof.
  intros Hkey Hkey' Hne Hline.
  destruct (key_line key' line) eqn:Hline'; [|done].
  exfalso. apply Hne. by apply (key_line_same_key key key' line).
Qed.

Lemma key_line_exclusive_witness :
  key_line ("10" : str) ("101^John Doe^2500.00" ++ [LF]) = false.
Proof.
  apply (key_line_exclusive ("101" : str) ("10" : str));
    [compute_done | compute_done | done | by vm_compute].
Defined.

(** ** The file after [update], read again *)

Section ReadAfterUpdate.

Implicit Types (key line raw : str) (lines : list str) (m : attribute_map).

Lemma assign_Forall (P : str → Prop) m : ∀ attrs attrs',
  assign attrs m = Ok attrs' →
  Forall P attrs → Forall (λ kv, P (render kv.2)) m → Forall P attrs'.
Proof.
  induction m as [|[k v] m IH]; intros attrs attrs'.
  - by intros [= <-].
  - cbn [assign]. unfold setitem.
    destruct (index attrs (k - 1)) as [j|]; [|done].
    cbn [mbind result_bind bind].
    intros Hassign Hattrs [Hv Hm]%Forall_cons.
    eapply IH; [exact Hassign | | done]. by apply Forall_insert.
Qed.

Lemma new_attributes_Forall (P : str → Prop) (r : PickRecord) m attrs :
  new_attributes r m = Ok attrs →
  Forall P (attributes r) → P [] → Forall (λ kv, P (render kv.2)) m →
  Forall P attrs.
Proof.
  unfold new_attributes. intros Hassign Hattrs Hnil Hm.
  eapply assign_Forall; [exact Hassign | | done].
  destruct (_ >? _); [|done].
  apply Forall_app. split; [done|]. by apply Forall_replicate.
Qed.

(** The line that [update] writes is a line of its key; stripped, it loses
    its LF and the whitespace at the end of the raw string. *)
Lemma updated_line_stripped key raw :
  starts_clean (key ++ [AM]) →
  strip (key ++ [AM] ++ raw ++ [LF]) = key ++ [AM] ++ rstrip raw.
Proof.
  intros Hclean.
  replace (key ++ [AM] ++ raw ++ [LF])
    with ((key ++ [AM] ++ raw) ++ [LF]) by by rewrite <- !app_assoc.
  rewrite strip_snoc by apply isspace_LF. unfold strip.
  rewrite lstrip_clean.
  - simpl. by rewrite rstrip_nonspace.
  - rewrite app_assoc. apply (starts_clean_app _ []); [by destruct key|].
    by rewrite app_nil_r.
Qed.

Lemma read_lines_replaced key updated_line raw lines :
  key_line key updated_line = true →
  split_once AM (strip updated_line) = [key; raw] →
  Exists (λ line, key_line key line = true) lines →
  read_lines key
    (map (λ line, if key_line key line then updated_line else line) lines)
  = Ok (init (Some key) (Some raw)).
Proof.
  intros Hline Hsplit.
  induction lines as [|line lines IH]; [by intros ?%Exists_nil|].
  intros Hex. cbn [map]. destruct (key_line key line) eqn:Hk.
  - by eapply read_lines_match.
  - rewrite read_lines_skip by done. apply IH.
    apply Exists_cons in Hex as [Hex|Hex]; [congruence | done].
Qed.

Lemma read_lines_untouched key key' updated_line lines :
  AM ∉ key → AM ∉ key' → key ≠ key' →
  key_line key updated_line = true →
  read_lines key'
    (map (λ line, if key_line key line then updated_line else line) lines)
  = read_lines key' lines.
Proof.
  intros Hkey Hkey' Hne Hupdated.
  assert (∀ line, key_line key line = true → key_line key' line = false)
    as Hexcl.
  { intros line Hline. destruct (key_line key' line) eqn:Hline'; [|done].
    exfalso. apply Hne. by apply (key_line_same_key key key' line). }
  induction lines as [|line lines IH]; [done|].
  cbn [map]. destruct (key_line key line) eqn:Hk.
  - rewrite !read_lines_skip; auto.
  - destruct (key_line key' line) eqn:Hk'.
    + destruct (key_line_split _ _ Hk') as (pre & raw & _ & _ & Hsplit).
      by rewrite !(read_lines_match key' line _ pre raw).
    + by rewrite !read_lines_skip.
Qed.

(** The update of a record that [read] found: the lines written are read
    back as they were written. *)
Lemma update_found_lines (fs fs' : FS) key (r r' : PickRecord) m :
  read fs key = Ok r → raw_data r ≠ None →
  update fs r m = Ok (fs', r') →
  Forall (λ kv, LF ∉ render kv.2) m →
  ∃ content new_raw,
    data_file fs = Some content
    ∧ raw_data r' = Some new_raw
    ∧ starts_clean (key ++ [AM])
    ∧ Exists (λ line, key_line key line = true) (readlines content)
    ∧ data_file fs'
      = Some (rewrite_lines key (key ++ [AM] ++ new_raw ++ [LF])
                (readlines content))
    ∧ readlines (rewrite_lines key (key ++ [AM] ++ new_raw ++ [LF])
                   (readlines content))
      = map (λ line, if key_line key line
                     then key ++ [AM] ++ new_raw ++ [LF] else line)
          (readlines content).
Proof.
  intros Hread Hfound Hupdate Hm.
  pose proof (read_key _ _ _ Hread) as Hkey.
  pose proof (read_attributes_free _ _ _ Hread) as Hshape.
  apply update_inv in Hupdate
    as (key0 & attrs & content & Hkey0 & _ & Hattrs & Hfile & -> & ->).
  rewrite Hkey in Hkey0. injection Hkey0 as <-.
  unfold read in Hread. rewrite Hfile in Hread.
  destruct (read_lines_cases key (readlines content))
    as [[_ Hr]|(before & line & after & pre & raw
                & Hlines & _ & Hline & Hstrip & _ & Hr)];
    rewrite Hr in Hread; injection Hread as <-; [done|].
  assert (LF ∉ key) as Hlfkey.
  { assert (LF ∉ strip line) as Hlf.
    { apply (text_lines_strip (readlines content)).
      - apply readlines_text_lines.
      - rewrite Hlines. apply elem_of_app. right. by left. }
    apply startswith_inv in Hline as [t Ht]. rewrite Ht in Hlf.
    by apply not_elem_of_app in Hlf as [[? _]%not_elem_of_app _]. }
  assert (starts_clean (key ++ [AM])) as Hclean.
  { pose proof (strip_starts_clean line) as Hs.
    apply startswith_inv in Hline as [t Ht]. rewrite Ht in Hs.
    rewrite <- (app_nil_r (key ++ [AM])).
    apply (starts_clean_app _ t); [by destruct key | done]. }
  assert (LF ∉ join AM attrs) as Hlfnew.
  { apply join_avoids; [done|].
    apply (new_attributes_Forall _ _ _ _ Hattrs).
    - eapply Forall_impl; [exact Hshape|]. by intros ? [_ ?].
    - apply not_elem_of_nil.
    - done. }
  exists content, (join AM attrs). split_and!; try done.
  - rewrite Hlines. apply Exists_app. right. by left.
  - unfold rewrite_lines. apply readlines_concat.
    apply (text_lines_map _ (key ++ [AM] ++ join AM attrs ++ [LF])).
    + exists (key ++ [AM] ++ join AM attrs).
      split; [by rewrite <- !app_assoc|].
      rewrite !not_elem_of_app. split_and!; [done | | done].
      intros ?%list_elem_of_singleton. done.
    + intros l. destruct (key_line key l); auto.
    + apply readlines_text_lines.
Qed.

End ReadAfterUpdate.

(** X5: after the update of a found record whose key holds no attribute
    mark, with values free of line breaks (LF and CR), reading the key
    again gives the record whose [raw_data] is the new raw attribute string
    without the whitespace at its end, and whose [attributes] are the split
    of that string (none for the empty string). *)
Theorem update_read_back (fs fs' : FS) (key : str) (r r' : PickRecord)
    (m : attribute_map) :
  read fs key = Ok r → raw_data r ≠ None → AM ∉ key →
  update fs r m = Ok (fs', r') →
  Forall (λ kv, (LF ∉ render kv.2) ∧ (CR ∉ render kv.2)) m →
  ∃ new_raw,
    raw_data r' = Some new_raw
    ∧ read fs' key
      = Ok {| record_key := Some key;
              raw_data := Some (rstrip new_raw);
              attributes :=
                if truthy (rstrip new_raw) then split AM (rstrip new_raw)
                else [] |}.
Proof.
  intros Hread Hfound Hkey Hupdate Hm.
  assert (Forall (λ kv : Z * value, LF ∉ render kv.2) m) as Hlf.
  { eapply Forall_impl; [exact Hm|]. by intros ? [? _]. }
  destruct (update_found_lines _ _ _ _ _ _ Hread Hfound Hupdate Hlf)
    as (content & new_raw & _ & Hraw & Hclean & Hex & Hfile & Hlines).
  exists new_raw. split; [done|].
  unfold read. rewrite Hfile, Hlines.
  pose proof (updated_line_stripped key new_raw Hclean) as Hstrip.
  rewrite (read_lines_replaced key _ (rstrip new_raw)); [done | | | done].
  - unfold key_line. rewrite Hstrip, app_assoc. apply startswith_app.
  - rewrite Hstrip. by apply split_once_app.
Qed.

Lemma update_read_back_witness :
  ∃ fs' r',
    update test_fs (found test_fs ("102" : str))
      [(3, Scalar (SStr ("2024 " : str)))] = Ok (fs', r')
    ∧ raw_data r' = Some ("Jane Smith^150.00]800.00^2024 " : str)
    ∧ read fs' ("102" : str)
      = Ok {| record_key := Some ("102" : str);
              raw_data := Some ("Jane Smith^150.00]800.00^2024" : str);
              attributes :=
                [("Jane Smith" : str); ("150.00]800.00" : str);
                 ("2024" : str)] |}.
Proof.
  destruct (update test_fs (found test_fs ("102" : str))
              [(3, Scalar (SStr ("2024 " : str)))]) as [[fs' r']|e] eqn:Hu;
    [|by vm_compute in Hu].
  exists fs', r'. split; [done|].
  destruct (update_read_back test_fs fs' ("102" : str)
              (found test_fs ("102" : str)) r'
              [(3, Scalar (SStr ("2024 " : str)))])
    as (new_raw & Hraw & Hread);
    [by vm_compute | done | compute_done | exact Hu | compute_done |].
  vm_compute in Hu. injection Hu as <- <-.
  injection Hraw as <-. split; [done | exact Hread].
Defined.

(** X6: the update of one record does not change what [read] returns for
    any other key (keys without attribute mark, values free of line
    breaks, LF and CR). *)
Theorem update_other_key (fs fs' : FS) (key key' : str) (r r' : PickRecord)
    (m : attribute_map) :
  read fs key = Ok r → update fs r m = Ok (fs', r') →
  AM ∉ key → AM ∉ key' → key ≠ key' →
  Forall (λ kv, (LF ∉ render kv.2) ∧ (CR ∉ render kv.2)) m →
  read fs' key' = read fs key'.
Proof.
  intros Hread Hupdate Hkey Hkey' Hne Hsafe.
  assert (Forall (λ kv : Z * value, LF ∉ render kv.2) m) as Hm.
  { eapply Forall_impl; [exact Hsafe|]. by intros ? [? _]. }
  destruct (raw_data r) as [raw|] eqn:Hraw.
  - destruct (update_found_lines fs fs' key r r' m)
      as (content & new_raw & Hfile0 & _ & Hclean & _ & Hfile & Hlines);
      [done | by rewrite Hraw | done | done |].
    unfold read. rewrite Hfile, Hfile0, Hlines.
    apply read_lines_untouched; [done..|].
    unfold key_line. rewrite updated_line_stripped, app_assoc by done.
    apply startswith_app.
  - pose proof (read_key _ _ _ Hread) as Hk.
    apply update_inv in Hupdate
      as (key0 & attrs & content & Hkey0 & _ & _ & Hfile & -> & _).
    rewrite Hk in Hkey0. injection Hkey0 as <-.
    unfold read in Hread |- *. rewrite Hfile in Hread |- *. cbn [data_file].
    destruct (read_lines_cases key (readlines content))
      as [[Hnone _]|(? & ? & ? & ? & ? & _ & _ & _ & _ & _ & Hr)].
    + by rewrite rewrite_lines_none, concat_readlines.
    + rewrite Hr in Hread. by injection Hread as <-.
Qed.

Lemma update_other_key_witness :
  ∃ fs' r',
    update test_fs (found test_fs ("102" : str))
      [(1, Scalar (SStr ("Jane Doe" : str)))] = Ok (fs', r')
    ∧ read fs' ("101" : str) = read test_fs ("101" : str).
Proof.
  destruct (update test_fs (found test_fs ("102" : str))
              [(1, Scalar (SStr ("Jane Doe" : str)))]) as [[fs' r']|e] eqn:Hu;
    [|by vm_compute in Hu].
  exists fs', r'. split; [done|].
  apply (update_other_key test_fs fs' ("102" : str) ("101" : str)
           (found test_fs ("102" : str)) r'
           [(1, Scalar (SStr ("Jane Doe" : str)))]);
    [by vm_compute | exact Hu | compute_done | compute_done | done
    | compute_done].
Defined.

(** ** The attribute list that [update] builds *)

Lemma lookup_padded {A} (l : list A) (n i : nat) (d : A) :
  (i < length (l ++ replicate n d))%nat →
  (l ++ replicate n d) !! i = Some (default d (l !! i)).
Proof.
  rewrite length_app, length_replicate. intros Hi.
  destruct (decide (i < length l)%nat) as [Hlt|Hge].
  - rewrite lookup_app_l by done.
    destruct (lookup_lt_is_Some_2 _ _ Hlt) as [x Hx]. by rewrite Hx.
  - rewrite lookup_app_r by lia. rewrite (lookup_ge_None_2 l) by lia. simpl.
    apply lookup_replicate_2. lia.
Qed.

(** The list that [update] assigns into: the old attributes, extended with
    empty strings so that every positive position of the map exists. *)
Lemma new_attributes_extended (r : PickRecord) (m : attribute_map) :
  Forall (λ kv, 0 < kv.1) m →
  ∃ attrs0,
    new_attributes r m = assign attrs0 m
    ∧ Z.of_nat (length attrs0)
      = Z.max (Z.of_nat (length (attributes r))) (max_key m)
    ∧ (∀ i : nat, (i < length attrs0)%nat →
         attrs0 !! i = Some (default [] (attributes r !! i)))
    ∧ Forall (λ kv, 1 <= kv.1 <= Z.of_nat (length attrs0)) m.
Proof.
  intros Hpos. unfold new_attributes.
  set (attrs0 := if max_key m >? Z.of_nat (length (attributes r))
                 then attributes r
                      ++ replicate (Z.to_nat (max_key m - Z.of_nat (length (attributes r)))) []
                 else attributes r).
  assert (Z.of_nat (length attrs0)
          = Z.max (Z.of_nat (length (attributes r))) (max_key m)) as Hlen.
  { subst attrs0. destruct (_ >? _) eqn:Hgt; zbool.
    - rewrite length_app, length_replicate. lia.
    - lia. }
  exists attrs0. split_and!; [done | done | |].
  - intros i Hi. subst attrs0. destruct (_ >? _).
    + by apply lookup_padded.
    + rewrite <- (app_nil_r (attributes r)) in Hi |- * at 1.
      by apply (lookup_padded _ 0).
  - rewrite Forall_forall in Hpos |- *. intros [k v] Hin.
    specialize (Hpos _ Hin). apply max_key_le in Hin. simpl in *. lia.
Qed.

(** X7: with positive positions, [update] never shortens the attribute
    list: the new list is as long as the longer of the old list and the
    largest position; an old attribute whose position is not in the map
    is kept, and a position added by the extension that is not in the map
    holds the empty string. *)
Theorem new_attributes_shape (r : PickRecord) (m : attribute_map)
    (attrs : list str) :
  Forall (λ kv, 0 < kv.1) m →
  new_attributes r m = Ok attrs →
  Z.of_nat (length attrs)
  = Z.max (Z.of_nat (length (attributes r))) (max_key m)
  ∧ (∀ i : nat,
       Forall (λ kv, Z.to_nat (kv.1 - 1) ≠ i) m →
       (i < length attrs)%nat →
       attrs !! i = Some (default [] (attributes r !! i))).
Proof.
  intros Hpos.
  destruct (new_attributes_extended r m Hpos)
    as (attrs0 & -> & Hlen & Hpad & Hrange).
  destruct (assign_in_range m attrs0 Hrange)
    as (attrs' & -> & Hl & _ & Hother & _).
  intros [= <-]. split; [lia|].
  intros i Hi Hlt. rewrite Hother by done. apply Hpad. lia.
Qed.

Lemma new_attributes_shape_witness :
  new_attributes (found test_fs ("102" : str))
    [(5, Scalar (SStr ("x" : str)))]
  = Ok [("Jane Smith" : str); ("150.00]800.00" : str);
        ("2024-02-10]2024-03-15" : str); []; ("x" : str)]
  ∧ Z.of_nat (length [("Jane Smith" : str); ("150.00]800.00" : str);
                      ("2024-02-10]2024-03-15" : str); []; ("x" : str)])
    = Z.max (Z.of_nat (length (attributes (found test_fs ("102" : str)))))
        (max_key [(5, Scalar (SStr ("x" : str)))]).
Proof.
  split; [by vm_compute|].
  apply (new_attributes_shape (found test_fs ("102" : str))
           [(5, Scalar (SStr ("x" : str)))]); [compute_done | by vm_compute].
Defined.

(** ** How [update] ends *)

(** X8: [update] raises [ValueError] on a record without key (absent or
    empty), whatever the store and the map; and an [update] that returned
    had a non-empty key and a store that existed, left in the backup the
    content that the store had before, and kept the key of the record. *)
Theorem update_outcome (fs : FS) (r : PickRecord) (m : attribute_map) :
  (record_key r = None ∨ record_key r = Some [] →
   update fs r m = Raise (ValueError no_key_message))
  ∧ (∀ fs' r',
       update fs r m = Ok (fs', r') →
       ∃ key content,
         record_key r = Some key ∧ key ≠ []
         ∧ data_file fs = Some content
         ∧ bak_file fs' = Some content
         ∧ record_key r' = Some key).
Proof.
  split.
  - unfold update. by intros [-> | ->].
  - intros fs' r' Hupdate.
    apply update_inv in Hupdate
      as (key & attrs & content & Hkey & Hne & _ & Hfile & -> & ->).
    by exists key, content.
Qed.

Lemma update_outcome_witness :
  update test_fs (init None (Some ("a^b" : str)))
    [(1, Scalar (SStr ("x" : str)))] = Raise (ValueError no_key_message)
  ∧ ∃ fs' r',
      update test_fs (found test_fs ("102" : str))
        [(1, Scalar (SStr ("x" : str)))] = Ok (fs', r')
      ∧ bak_file fs' = Some test_data
      ∧ record_key r' = Some ("102" : str).
Proof.
  split.
  - destruct (update_outcome test_fs (init None (Some ("a^b" : str)))
                [(1, Scalar (SStr ("x" : str)))]) as [Hnokey _].
    apply Hnokey. by left.
  - destruct (update test_fs (found test_fs ("102" : str))
                [(1, Scalar (SStr ("x" : str)))]) as [[fs' r']|e] eqn:Hu;
      [|by vm_compute in Hu].
    exists fs', r'. split; [done|].
    destruct (update_outcome test_fs (found test_fs ("102" : str))
                [(1, Scalar (SStr ("x" : str)))]) as [_ Hdone].
    destruct (Hdone fs' r' Hu)
      as (key & content & Hkey & _ & Hfile & Hbak & Hkey').
    injection Hkey as <-. injection Hfile as <-. done.
Defined.

(** * Further properties of the projection and of the endpoints *)

(** X9: each returned transaction holds, as amount and as date, the entry
    of the returned balance history and of the returned date list at its
    index, and the string "None" where that list is too short. *)
Theorem transactions_aligned `{Coercions} (r : PickRecord)
    (parse_numbers parse_dates : bool) (latest_balance : str)
    (p : Projection) (i : nat) (e : dict str) :
  to_json r parse_numbers parse_dates latest_balance = Some p →
  transactions p !! i = Some e →
  e = [("amount"%string,
        default ("None" : str) (legacy_balances_history p !! i));
       ("date"%string, default ("None" : str) (transaction_dates p !! i))].
Proof.
  unfold to_json. destruct (negb _); [done|]. intros [= <-].
  cbn [transactions legacy_balances_history transaction_dates].
  unfold pair_transactions.
  set (pb := map (parse_balance parse_numbers) _).
  set (pd := map (parse_date parse_dates) _).
  cbv zeta. rewrite !lookup_map.
  destruct (seq _ _ !! i) as [j|] eqn:Hj; [|done].
  apply lookup_seq in Hj as [-> _]. simpl. intros [= <-].
  unfold render_tx. destruct (make_tx_fields pb pd i) as [-> ->].
  by destruct (pb !! i), (pd !! i).
Qed.

Lemma transactions_aligned_witness :
  ∃ p,
    @to_json no_coercions (found test_fs ("104" : str)) false false
      ("last" : str) = Some p
    ∧ transactions p !! 2%nat
      = Some [("amount"%string, ("None" : str));
              ("date"%string, ("2024-06-01" : str))].
Proof.
  destruct (@to_json no_coercions (found test_fs ("104" : str)) false false
              ("last" : str)) as [p|] eqn:Hp; [|by vm_compute in Hp].
  exists p. split; [done|].
  destruct (transactions p !! 2%nat) as [e|] eqn:He.
  - rewrite (@transactions_aligned no_coercions _ _ _ _ p 2%nat e Hp He).
    vm_compute in Hp. injection Hp as <-. done.
  - vm_compute in Hp. injection Hp as <-. done.
Defined.

(** X10: every entry of the balance history is a non-empty value of
    attribute 2, kept as it is unless numbers are parsed and the value is
    one: a value that does not parse stays verbatim.  Likewise for the
    dates and attribute 3. *)
Theorem projection_keeps_unparsed `{Coercions} (r : PickRecord)
    (parse_numbers parse_dates : bool) (latest_balance : str)
    (p : Projection) :
  to_json r parse_numbers parse_dates latest_balance = Some p →
  Forall2
    (λ b out,
       b ≠ []
       ∧ match Decimal_of_str b with
         | Some d => out = if parse_numbers then str_of_Decimal d else b
         | None => out = b
         end)
    (filter (λ x, x ≠ []) (split VM (extract r 2 None None)))
    (legacy_balances_history p)
  ∧ Forall2
      (λ d out,
         d ≠ []
         ∧ match strptime_date d with
           | Some x => out = if parse_dates then str_of_date x else d
           | None => out = d
           end)
      (filter (λ x, x ≠ []) (split VM (extract r 3 None None)))
      (transaction_dates p).
Proof.
  unfold to_json. destruct (negb _); [done|]. intros [= <-].
  cbn [legacy_balances_history transaction_dates].
  assert (∀ raw : str, multivalues raw = filter (λ x, x ≠ []) (split VM raw))
    as Hmulti.
  { intros raw. unfold multivalues. by destruct raw. }
  rewrite !Hmulti, !map_map. split.
  - generalize (split VM (extract r 2 None None)).
    intros l. induction l as [|b l IH]; [constructor|].
    rewrite filter_cons. case_decide; [|done]. cbn [map].
    constructor; [|done]. split; [done|].
    unfold parse_balance. destruct parse_numbers, (Decimal_of_str b); done.
  - generalize (split VM (extract r 3 None None)).
    intros l. induction l as [|d l IH]; [constructor|].
    rewrite filter_cons. case_decide; [|done]. cbn [map].
    constructor; [|done]. split; [done|].
    unfold parse_date. destruct parse_dates, (strptime_date d); done.
Qed.

Lemma projection_keeps_unparsed_witness :
  ∃ p,
    @to_json no_coercions (found test_fs ("103" : str)) true true
      ("last" : str) = Some p
    ∧ Forall2 (λ b out : str, b ≠ [] ∧ out = b)
        [("9800.00" : str)] (legacy_balances_history p).
Proof.
  destruct (@to_json no_coercions (found test_fs ("103" : str)) true true
              ("last" : str)) as [p|] eqn:Hp; [|by vm_compute in Hp].
  exists p. split; [done|].
  destruct (@projection_keeps_unparsed no_coercions _ _ _ _ p Hp) as [Hb _].
  exact Hb.
Defined.



(** X12: a request that the POST endpoint answers with 400 or 404 never
    reaches [update]: the store and its backup are as before.  A request
    answered with 200 had a non-empty body whose keys all parse, for a record
    that [read] found with data, and leaves in the backup the content that
    the store had before. *)
Theorem update_legacy_client_store (fs fs' : FS) (req : App.request)
    (client_id : str) (data : option App.json_object) (body : App.body)
    (status : Z) :
  App.update_legacy_client fs req client_id data = (body, status, fs') →
  (status = 400 ∨ status = 404 → fs' = fs)
  ∧ (status = 200 →
     ∃ items record attr_map content,
       data = Some items ∧ items ≠ []
       ∧ read fs client_id = Ok record
       ∧ present (raw_data record) = true
       ∧ App.validate [] items = inr attr_map
       ∧ data_file fs = Some content
       ∧ bak_file fs' = Some content).
Proof.
  unfold App.update_legacy_client, App.not_found.
  destruct data as [[|item data]|];
    try (intros [= <- <- <-]; split; [done | intros; lia]).
  destruct (read fs client_id) as [record|e] eqn:Hread;
    [|intros [= <- <- <-]; split; [intros [?|?]; lia | intros; lia]].
  destruct (present (raw_data record)) eqn:Hpresent; cbn [negb];
    [|intros [= <- <- <-]; split; [done | intros; lia]].
  destruct (App.validate [] (item :: data)) as [k|attr_map] eqn:Hvalid;
    [intros [= <- <- <-]; split; [done | intros; lia]|].
  destruct (update fs record attr_map) as [[fs1 r1]|e] eqn:Hupdate;
    [|intros [= <- <- <-]; split; [intros [?|?]; lia | intros; lia]].
  intros [= <- <- <-]. split; [intros [?|?]; lia|]. intros _.
  apply update_inv in Hupdate
    as (key & attrs & content & _ & _ & _ & Hfile & -> & _).
  exists (item :: data), record, attr_map, content. by split_and!.
Qed.

Lemma update_legacy_client_store_witness :
  let req := App.mkRequest ("/update_legacy_client" : str) None None None in
  App.update_legacy_client test_fs req ("999" : str)
    (Some [(("1" : str), Scalar (SStr ("X" : str)))])
  = (App.NotFound ("Not found /update_legacy_client" : str), 404, test_fs)
  ∧ ∃ body fs',
      App.update_legacy_client test_fs req ("102" : str)
        (Some [(("1" : str), Scalar (SStr ("X" : str)))])
      = (body, 200, fs')
      ∧ bak_file fs' = Some test_data.
Proof.
  intros req. split.
  - destruct (App.update_legacy_client test_fs req ("999" : str)
                (Some [(("1" : str), Scalar (SStr ("X" : str)))]))
      as [[body status] fs'] eqn:Hrun.
    destruct (update_legacy_client_store _ _ _ _ _ _ _ Hrun) as (Hsame & _).
    assert (status = 404
            ∧ body = App.NotFound ("Not found /update_legacy_client" : str))
      as [-> ->].
    { vm_compute in Hrun. by injection Hrun as <- <- _. }
    rewrite Hsame; [done | by right].
  - destruct (App.update_legacy_client test_fs req ("102" : str)
                (Some [(("1" : str), Scalar (SStr ("X" : str)))]))
      as [[body status] fs'] eqn:Hrun.
    assert (status = 200) as ->.
    { vm_compute in Hrun. by injection Hrun as _ <- _. }
    exists body, fs'. split; [done|].
    destruct (update_legacy_client_store _ _ _ _ _ _ _ Hrun) as (_ & Hok).
    destruct (Hok eq_refl) as (? & ? & ? & content & _ & _ & _ & _ & _ & Hfile & Hbak).
    injection Hfile as <-. done.
Defined.

(** ** The attribute map that the POST endpoint builds *)

Section Validate.

Implicit Types (m acc : attribute_map) (pos : Z) (v w : value)
  (data : App.json_object).

Lemma dict_set_here m pos v : (pos, v) ∈ App.dict_set m pos v.
Proof.
  induction m as [|[k w] m IH]; simpl; [by left|].
  destruct (k =? pos) eqn:Hk; [|by right].
  zbool. subst. by left.
Qed.

Lemma dict_set_other m pos pos' v w :
  pos' ≠ pos → (pos', w) ∈ m → (pos', w) ∈ App.dict_set m pos v.
Proof.
  intros Hne. induction m as [|[k u] m IH]; simpl;
    [by intros ?%elem_of_nil|].
  intros [[= <- <-]|Hin]%elem_of_cons.
  - destruct (pos' =? pos) eqn:Hk; [zbool; done | by left].
  - destruct (k =? pos); right; auto.
Qed.

Lemma dict_set_inv m pos v k w :
  (k, w) ∈ App.dict_set m pos v → (k, w) = (pos, v) ∨ (k, w) ∈ m.
Proof.
  induction m as [|[k' u] m IH]; simpl.
  - intros ->%list_elem_of_singleton. by left.
  - destruct (k' =? pos) eqn:Hk.
    + zbool. subst. intros [->|Hin]%elem_of_cons; [by left|].
      right. by right.
    + intros [->|Hin]%elem_of_cons; [right; by left|].
      destruct (IH Hin) as [?|?]; [by left|]. right. by right.
Qed.

Lemma dict_set_keys m pos v k :
  k ∈ map fst (App.dict_set m pos v) → k = pos ∨ k ∈ map fst m.
Proof.
  rewrite !list_elem_of_In, !in_map_iff.
  intros ([k' w] & <- & Hin%list_elem_of_In%dict_set_inv).
  destruct Hin as [[= -> ->]|Hin]; [by left|]. right.
  exists (k', w). split; [done | by apply list_elem_of_In].
Qed.

Lemma dict_set_NoDup m pos v :
  NoDup (map fst m) → NoDup (map fst (App.dict_set m pos v)).
Proof.
  induction m as [|[k w] m IH]; simpl.
  - intros _. apply NoDup_singleton.
  - intros [Hk Hm]%NoDup_cons. destruct (k =? pos) eqn:Hkp; simpl.
    + by apply NoDup_cons.
    + apply NoDup_cons. split; [|by apply IH].
      intros [->|?]%dict_set_keys; [zbool|]; done.
Qed.

(** The loop of the validation, from any dictionary built so far. *)
Lemma validate_from acc data m :
  App.validate acc data = inr m →
  NoDup (map fst acc) →
  NoDup (map fst m)
  ∧ (∀ pos v, (pos, v) ∈ m →
       (pos, v) ∈ acc ∨ ∃ k, (k, v) ∈ data ∧ int k = Some pos)
  ∧ (∀ pos v, (pos, v) ∈ acc →
       Forall (λ kv, int kv.1 ≠ Some pos) data → (pos, v) ∈ m)
  ∧ (∀ data1 k v data2 pos,
       data = data1 ++ (k, v) :: data2 → int k = Some pos →
       Forall (λ kv, int kv.1 ≠ Some pos) data2 → (pos, v) ∈ m).
Proof.
  revert acc. induction data as [|[k0 v0] data IH]; intros acc.
  - intros [= <-] Hacc. split_and!; auto.
    intros data1 k v data2 pos Hd. by destruct data1.
  - cbn [App.validate]. destruct (int k0) as [pos0|] eqn:Hint; [|done].
    intros Hval Hacc.
    destruct (IH _ Hval (dict_set_NoDup _ pos0 v0 Hacc))
      as (Hnodup & Horigin & Hkeep & Hlast).
    split_and!; [done | | |].
    + intros pos v [Hin|(k & Hin & Hk)]%Horigin.
      * apply dict_set_inv in Hin as [[= -> ->]|Hin]; [|by left].
        right. exists k0. split; [by left | done].
      * right. exists k. split; [by right | done].
    + intros pos v Hin [Hhead Hrest]%Forall_cons. simpl in Hhead.
      apply Hkeep; [|done]. apply dict_set_other; [congruence | done].
    + intros data1 k v data2 pos Hd Hk Hrest.
      destruct data1 as [|item data1]; simpl in Hd.
      * injection Hd as -> -> ->. rewrite Hint in Hk. injection Hk as ->.
        apply Hkeep; [apply dict_set_here | done].
      * injection Hd as _ ->. by eapply Hlast.
Qed.

End Validate.

(** X13: the attribute map that the POST endpoint hands to [update] is a
    dictionary: its positions are distinct; each of its entries comes from
    a member of the body whose key parses to that position; and of several
    members whose keys parse to the same position (such as "1" and "01")
    the last one gives the value. *)
Theorem validate_dictionary (data : App.json_object) (m : attribute_map) :
  App.validate [] data = inr m →
  NoDup (map fst m)
  ∧ (∀ pos v, (pos, v) ∈ m → ∃ k, (k, v) ∈ data ∧ int k = Some pos)
  ∧ (∀ data1 k v data2 pos,
       data = data1 ++ (k, v) :: data2 → int k = Some pos →
       Forall (λ kv, int kv.1 ≠ Some pos) data2 → (pos, v) ∈ m).
Proof.
  intros Hval.
  destruct (validate_from [] data m Hval) as (Hnodup & Horigin & _ & Hlast).
  { constructor. }
  split_and!; [done | | done].
  intros pos v [Hin|?]%Horigin; [|done]. by apply elem_of_nil in Hin.
Qed.

Lemma validate_dictionary_witness :
  App.validate []
    [(("1" : str), Scalar (SStr ("a" : str)));
     (("2" : str), Scalar (SStr ("b" : str)));
     (("01" : str), Scalar (SStr ("c" : str)))]
  = inr [(1, Scalar (SStr ("c" : str))); (2, Scalar (SStr ("b" : str)))]
  ∧ NoDup (map fst [(1, Scalar (SStr ("c" : str)));
                    (2, Scalar (SStr ("b" : str)))]).
Proof.
  split; [by vm_compute|].
  apply (validate_dictionary
           [(("1" : str), Scalar (SStr ("a" : str)));
            (("2" : str), Scalar (SStr ("b" : str)));
            (("01" : str), Scalar (SStr ("c" : str)))]).
  by vm_compute.
Defined.

(** * The document endpoints *)

Section Serialize.

Context `{Bson}.

Import Students.

Implicit Types (doc pre items : document) (k key : str) (v w : field).

Lemma str_eqb_true (a b : str) : str_eqb a b = true ↔ a = b.
Proof. unfold str_eqb. apply bool_decide_eq_true. Qed.

Lemma str_eqb_false (a b : str) : str_eqb a b = false ↔ a ≠ b.
Proof. unfold str_eqb. apply bool_decide_eq_false. Qed.

Lemma lookup_key_split {V} (d : object V) k (v : V) :
  lookup_key d k = Some v →
  ∃ a b, d = a ++ (k, v) :: b ∧ k ∉ map fst a.
Proof.
  induction d as [|[k' w] d IH]; simpl; [done|].
  destruct (str_eqb k' k) eqn:Hk.
  - apply str_eqb_true in Hk as ->. intros [= ->].
    exists [], d. split; [done | apply not_elem_of_nil].
  - apply str_eqb_false in Hk. intros (a & b & -> & Ha)%IH.
    exists ((k', w) :: a), b. split; [done|]. simpl.
    apply not_elem_of_cons. split; [congruence | done].
Qed.

Lemma lookup_key_None {V} (d : object V) k :
  lookup_key d k = None ↔ k ∉ map fst d.
Proof.
  induction d as [|[k' w] d IH]; simpl.
  - split; [intros _; apply not_elem_of_nil | done].
  - destruct (str_eqb k' k) eqn:Hk.
    + apply str_eqb_true in Hk as ->. split; [done|].
      intros Hn. exfalso. apply Hn. by left.
    + apply str_eqb_false in Hk. rewrite IH, not_elem_of_cons.
      split; [intros ?; split; congruence | by intros [_ ?]].
Qed.

Lemma assign_key_app {V} (a b : object V) k (v w : V) :
  k ∉ map fst a → assign_key (a ++ (k, v) :: b) k w = a ++ (k, w) :: b.
Proof.
  induction a as [|[k' u] a IH]; simpl.
  - intros _. by rewrite (proj2 (str_eqb_true k k)).
  - intros [Hk Ha]%not_elem_of_cons.
    rewrite (proj2 (str_eqb_false k' k)) by congruence. by rewrite IH.
Qed.

Lemma converted_fst item : (converted item).1 = item.1.
Proof. by destruct item as [k [| |]]. Qed.

(** The loop over the items, the items before [items] being done. *)
Lemma serialize_loop items : ∀ pre,
  NoDup (map fst (pre ++ items)) →
  fold_left serialize_item items (map converted pre ++ items)
  = map converted (pre ++ items).
Proof.
  induction items as [|[k v] items IH]; intros pre Hnodup.
  - simpl. by rewrite !app_nil_r.
  - cbn [fold_left].
    assert (serialize_item (map converted pre ++ (k, v) :: items) (k, v)
            = map converted (pre ++ [(k, v)]) ++ items) as ->.
    { rewrite map_app, <- app_assoc. simpl.
      assert (k ∉ map fst (map converted pre)) as Hk.
      { rewrite map_map. rewrite (map_ext _ fst) by apply converted_fst.
        rewrite map_app in Hnodup. apply NoDup_app in Hnodup as (_ & Hdisj & _).
        intros Hin. apply (Hdisj k Hin). simpl. by left. }
      destruct v; simpl; try done. by rewrite assign_key_app. }
    rewrite IH; [by rewrite <- app_assoc | by rewrite <- app_assoc].
Qed.

Lemma converted_serialized (l : document) :
  Forall (λ item, item.1 ≠ ("_id" : str)) l →
  map converted l = map serialized_item l.
Proof.
  induction 1 as [|[k v] l Hk _ IH]; [done|]. simpl in Hk. cbn [map].
  rewrite IH. f_equal. unfold serialized_item.
  rewrite (proj2 (str_eqb_false k _)) by done. by destruct v.
Qed.

Lemma serialized_item_fst item : (serialized_item item).1 = item.1.
Proof.
  destruct item as [k v]. unfold serialized_item.
  destruct (str_eqb k _); [done|]. by destruct v.
Qed.

Lemma serialized_item_idempotent item :
  serialized_item (serialized_item item) = serialized_item item.
Proof.
  destruct item as [k v]. unfold serialized_item.
  destruct (str_eqb k _) eqn:Hk.
  - by rewrite Hk.
  - destruct v; by rewrite Hk.
Qed.

Lemma serialized_item_no_datetime item d :
  (serialized_item item).2 ≠ FDatetime d.
Proof.
  destruct item as [k v]. unfold serialized_item.
  destruct (str_eqb k _); [done|]. by destruct v.
Qed.

(** The closed form of [serialize_doc] on a dictionary with an ["_id"]. *)
Lemma serialize_doc_closed doc :
  NoDup (map fst doc) → ("_id" : str) ∈ map fst doc →
  serialize_doc doc = Some (map serialized_item doc).
Proof.
  intros Hnodup Hin. unfold serialize_doc.
  destruct (lookup_key doc ("_id" : str)) as [id|] eqn:Hid;
    [|by apply lookup_key_None in Hid].
  apply lookup_key_split in Hid as (a & b & -> & Ha).
  rewrite assign_key_app by done. f_equal.
  set (idstr := FJson (JScalar (SStr (str_of_field id)))).
  assert (fold_left serialize_item (a ++ (("_id" : str), idstr) :: b)
            (a ++ (("_id" : str), idstr) :: b)
          = map converted (a ++ (("_id" : str), idstr) :: b)) as ->.
  { apply (serialize_loop _ []). simpl.
    rewrite map_app in Hnodup |- *. exact Hnodup. }
  assert (Forall (λ item : str * field, item.1 ≠ ("_id" : str)) a) as Hfa.
  { rewrite Forall_forall. intros [k v] Hkv Hk. simpl in Hk. subst k. apply Ha.
    apply list_elem_of_In, in_map_iff. exists (("_id" : str), v).
    split; [done | by apply list_elem_of_In]. }
  assert (Forall (λ item : str * field, item.1 ≠ ("_id" : str)) b) as Hfb.
  { rewrite map_app in Hnodup. apply NoDup_app in Hnodup as (_ & _ & Hb).
    simpl in Hb. apply NoDup_cons in Hb as [Hb _].
    rewrite Forall_forall. intros [k v] Hkv Hk. simpl in Hk. subst k. apply Hb.
    apply list_elem_of_In, in_map_iff. exists (("_id" : str), v).
    split; [done | by apply list_elem_of_In]. }
  rewrite !map_app. cbn [map].
    rewrite !converted_serialized by done. f_equal.
Qed.

End Serialize.

(** X14: on a document with distinct keys, [serialize_doc] fails (with the
    [KeyError]) exactly when there is no ["_id"]; otherwise it returns the
    document with the same keys in the same order, in which ["_id"] is the
    string form of the id, every timestamp is its formatted string, every
    other value is unchanged, and no timestamp is left. *)
Theorem serialize_doc_result `{Bson} (doc : Students.document) :
  NoDup (map fst doc) →
  (("_id" : str) ∉ map fst doc → Students.serialize_doc doc = None)
  ∧ (("_id" : str) ∈ map fst doc →
     ∃ out,
       Students.serialize_doc doc = Some out
       ∧ out = map Students.serialized_item doc
       ∧ map fst out = map fst doc
       ∧ Forall (λ item, ∀ d, item.2 ≠ Students.FDatetime d) out).
Proof.
  intros Hnodup. split.
  - intros Hid. unfold Students.serialize_doc.
    by rewrite (proj2 (lookup_key_None doc _) Hid).
  - intros Hid. eexists. split; [by apply serialize_doc_closed|].
    split_and!; [done | |].
    + rewrite map_map. apply map_ext, serialized_item_fst.
    + apply List.Forall_map, Forall_forall. intros item _ d.
      apply serialized_item_no_datetime.
Qed.

Lemma serialize_doc_result_witness :
  @Students.serialize_doc plain_bson stored_doc = Some serialized_doc.
Proof.
  destruct (@serialize_doc_result plain_bson stored_doc) as [_ Hsome];
    [compute_done|].
  destruct Hsome as (out & -> & -> & _); [compute_done|].
  by vm_compute.
Defined.

(** X15: [serialize_doc] is idempotent: serializing a serialized document
    (with distinct keys) returns it unchanged. *)
Theorem serialize_doc_idempotent `{Bson} (doc out : Students.document) :
  NoDup (map fst doc) →
  Students.serialize_doc doc = Some out →
  Students.serialize_doc out = Some out.
Proof.
  intros Hnodup Hout.
  assert (("_id" : str) ∈ map fst doc) as Hid.
  { destruct (decide (("_id" : str) ∈ map fst doc)) as [|Hn]; [done|].
    unfold Students.serialize_doc in Hout.
    by rewrite (proj2 (lookup_key_None doc _) Hn) in Hout. }
  rewrite serialize_doc_closed in Hout by done. injection Hout as <-.
  assert (map fst (map Students.serialized_item doc) = map fst doc) as Hkeys.
  { rewrite map_map. apply map_ext, serialized_item_fst. }
  rewrite serialize_doc_closed by by rewrite Hkeys.
  f_equal. rewrite map_map. apply map_ext, serialized_item_idempotent.
Qed.

Lemma serialize_doc_idempotent_witness :
  @Students.serialize_doc plain_bson serialized_doc = Some serialized_doc.
Proof.
  apply (@serialize_doc_idempotent plain_bson stored_doc);
    [compute_done | by vm_compute].
Defined.

Section AddStudents.

Context `{Bson}.

Import Students.

Implicit Types (student : object json) (students : list (object json))
  (docs : list document).

Lemma prepare_student_None student :
  prepare_student student = None
  ↔ parse_date_field (get student ("created" : str)) = None
    ∨ parse_date_field (get student ("last_updated" : str)) = None.
Proof.
  unfold prepare_student.
  destruct (parse_date_field (get student ("created" : str)));
    destruct (parse_date_field (get student ("last_updated" : str)));
    (split; [intros Hnone | intros [Hnone|Hnone]]); try done; auto.
Qed.

Lemma prepare_all_Some students : ∀ insert_list docs,
  Forall2 (λ student d, prepare_student student = Some d) students docs →
  prepare_all insert_list students = Some (insert_list ++ docs).
Proof.
  induction students as [|student students IH]; intros insert_list docs Hall.
  - apply Forall2_nil_inv_l in Hall as ->. by rewrite app_nil_r.
  - apply Forall2_cons_inv_l in Hall as (d & docs' & Hd & Hall & ->).
    cbn [prepare_all]. rewrite Hd, (IH _ docs') by done.
    by rewrite <- app_assoc.
Qed.

Lemma prepare_all_None students : ∀ insert_list,
  Exists (λ student, prepare_student student = None) students →
  prepare_all insert_list students = None.
Proof.
  induction students as [|student students IH]; intros insert_list;
    [by intros ?%Exists_nil|].
  intros [Hhead|Htail]%Exists_cons; cbn [prepare_all].
  - by rewrite Hhead.
  - destruct (prepare_student student); [by apply IH | done].
Qed.

End AddStudents.

(** X16: [add_students] inserts all students or none.  If one student of
    the list has a [created] or [last_updated] that is not a date string,
    the answer is 400 and the collection is left as it was, whatever the
    other students are; if every student has both dates, the prepared
    documents are inserted together, in the order of the request, and the
    answer is 200. *)
Theorem add_students_all_or_nothing `{Bson} (DB : Type)
    (insert_many : list Students.document → DB → DB) (db : DB) (url : str)
    (students : list (Students.object Students.json)) :
  students ≠ [] →
  (Exists
     (λ student,
        Students.parse_date_field (Students.get student ("created" : str))
          = None
        ∨ Students.parse_date_field
            (Students.get student ("last_updated" : str)) = None)
     students →
   Students.add_students DB insert_many db url (Some students)
   = (Students.invalid_date_message, 400, db))
  ∧ (∀ docs,
       Forall2 (λ student d, Students.prepare_student student = Some d)
         students docs →
       Students.add_students DB insert_many db url (Some students)
       = (("Students added successfully" : str), 200, insert_many docs db)).
Proof.
  intros Hne. destruct students as [|student students]; [done|]. split.
  - intros Hbad. unfold Students.add_students.
    rewrite prepare_all_None; [done|].
    eapply Exists_impl; [exact Hbad|].
    intros st Hst. by apply prepare_student_None.
  - intros docs Hall. unfold Students.add_students.
    rewrite (prepare_all_Some _ [] docs) by done. simpl.
    apply Forall2_cons_inv_l in Hall as (d & docs' & _ & _ & ->). done.
Qed.

Lemma add_students_all_or_nothing_witness :
  @Students.add_students plain_bson _ list_insert_many [stored_doc]
    ("/add_students" : str) (Some [dated_student; undated_student])
  = (@Students.invalid_date_message, 400, [stored_doc]).
Proof.
  destruct (@add_students_all_or_nothing plain_bson _ list_insert_many
              [stored_doc] ("/add_students" : str)
              [dated_student; undated_student]) as [Hbad _]; [done|].
  apply Hbad. apply Exists_cons. right. apply Exists_cons. left.
  right. by vm_compute.
Defined.

(** * Updating twice *)

Section UpdateTwice.

Implicit Types (m : attribute_map) (attrs : list str).

(** Assigning a dictionary into a list that already holds its values
    changes nothing. *)
Lemma assign_again m attrs :
  NoDup (map fst m) →
  Forall (λ kv, 1 <= kv.1 <= Z.of_nat (length attrs)) m →
  Forall (λ kv, attrs !! Z.to_nat (kv.1 - 1) = Some (render kv.2)) m →
  assign attrs m = Ok attrs.
Proof.
  intros Hnodup Hrange Hheld.
  destruct (assign_in_range m attrs Hrange)
    as (attrs' & -> & Hlen & _ & Hother & Hset).
  f_equal. apply list_eq. intros i.
  destruct (decide (Forall (λ kv : Z * value, Z.to_nat (kv.1 - 1) ≠ i) m))
    as [Hfree|Hused]; [by apply Hother|].
  apply not_Forall_Exists in Hused; [|apply _].
  apply Exists_exists in Hused as (kv & Hin & Hi). simpl in Hi.
  apply dec_stable in Hi. subst i.
  specialize (Hset Hnodup). rewrite Forall_forall in Hset, Hheld.
  by rewrite (Hset _ Hin), (Hheld _ Hin).
Qed.

(** After an update the record holds what a second update would build. *)
Lemma new_attributes_again (r r' : PickRecord) m attrs :
  NoDup (map fst m) →
  Forall (λ kv, 0 < kv.1 ∧ AM ∉ render kv.2) m →
  Forall (λ x : str, AM ∉ x) (attributes r) →
  new_attributes r m = Ok attrs →
  attributes r' = split AM (join AM attrs) →
  ∃ attrs2, new_attributes r' m = Ok attrs2 ∧ join AM attrs2 = join AM attrs.
Proof.
  intros Hnodup Hm Hfree Hattrs Hr'.
  assert (Forall (λ kv : Z * value, 0 < kv.1) m) as Hpos.
  { eapply Forall_impl; [exact Hm|]. by intros ? [? _]. }
  assert (Forall (λ x : str, AM ∉ x) attrs) as Hfree'.
  { apply (new_attributes_Forall _ r m attrs Hattrs); [done | |].
    - apply not_elem_of_nil.
    - eapply Forall_impl; [exact Hm|]. by intros ? [_ ?]. }
  destruct (new_attributes_positive r m Hpos) as (attrs1 & Hattrs1 & _ & Hheld).
  rewrite Hattrs in Hattrs1. injection Hattrs1 as <-.
  specialize (Hheld Hnodup).
  destruct (new_attributes_extended r m Hpos)
    as (attrs0 & Hassign & Hlen0 & _ & Hrange0).
  assert (Z.max (Z.of_nat (length (attributes r))) (max_key m)
          = Z.of_nat (length attrs)) as Hlen.
  { rewrite <- Hlen0. rewrite Hassign in Hattrs.
    destruct (assign_in_range m attrs0 Hrange0) as (a' & Ha' & Hl & _).
    rewrite Ha' in Hattrs. injection Hattrs as <-. lia. }
  destruct attrs as [|x attrs].
  - (* nothing to assign and nothing to keep *)
    destruct m as [|[k v] m].
    + exists [[]]. split; [|done]. unfold new_attributes. by rewrite Hr'.
    + exfalso. apply Forall_cons in Hpos as [Hk _].
      pose proof (max_key_le ((k, v) :: m) k v ltac:(by left)).
      simpl in *. lia.
  - exists (x :: attrs). split; [|done].
    rewrite split_join in Hr' by done.
    unfold new_attributes. rewrite Hr'.
    destruct (max_key m >? Z.of_nat (length (x :: attrs))) eqn:Hgt;
      [zbool; lia|].
    apply assign_again; [done | | done].
    rewrite Forall_forall in Hheld |- *. intros [k v] Hin.
    specialize (Hheld _ Hin). simpl in *.
    apply lookup_lt_Some in Hheld.
    rewrite Forall_forall in Hpos. specialize (Hpos _ Hin). simpl in *. lia.
Qed.

End UpdateTwice.

(** X17: [update] is idempotent on a found record.  With distinct positive
    positions and values free of attribute marks and line breaks (LF and
    CR), applying the same map a second time leaves the store and the
    record as the first update left them; only the backup changes, to the
    content after the first update. *)
Theorem update_idempotent (fs fs' : FS) (key : str) (r r' : PickRecord)
    (m : attribute_map) :
  read fs key = Ok r → raw_data r ≠ None →
  NoDup (map fst m) →
  Forall (λ kv, 0 < kv.1 ∧ attribute_safe (render kv.2)) m →
  update fs r m = Ok (fs', r') →
  update fs' r' m
  = Ok ({| data_file := data_file fs'; bak_file := data_file fs' |}, r').
Proof.
  intros Hread Hfound Hnodup Hm Hupdate.
  destruct (update_found_lines fs fs' key r r' m)
    as (content & new_raw & Hfile0 & Hraw & Hclean & _ & Hfile & Hlines);
    [done | done | done | |].
  { eapply Forall_impl; [exact Hm|]. by intros ? (_ & _ & ? & _). }
  apply update_inv in Hupdate
    as (key0 & attrs & content0 & Hkey0 & Hne & Hattrs & Hfile1 & -> & ->).
  rewrite (read_key _ _ _ Hread) in Hkey0. injection Hkey0 as <-.
  rewrite Hfile0 in Hfile1. injection Hfile1 as <-.
  cbn [raw_data] in Hraw. injection Hraw as <-.
  clear Hfile. cbn [data_file].
  destruct (new_attributes_again r
              {| record_key := Some key; raw_data := Some (join AM attrs);
                 attributes := split AM (join AM attrs) |} m attrs)
    as (attrs2 & Hattrs2 & Hjoin); [done | | | done | done |].
  { eapply Forall_impl; [exact Hm|]. by intros ? (? & ? & _ & _). }
  { eapply Forall_impl; [by apply (read_attributes_free fs key)|].
    by intros ? [? _]. }
  erewrite update_ok; [|reflexivity | exact Hne | exact Hattrs2 | reflexivity].
  rewrite Hjoin, Hlines.
  assert (key_line key (key ++ [AM] ++ join AM attrs ++ [LF]) = true) as Hul.
  { unfold key_line. rewrite updated_line_stripped, app_assoc by done.
    apply startswith_app. }
  assert (∀ lines,
            rewrite_lines key (key ++ [AM] ++ join AM attrs ++ [LF])
              (map (λ line, if key_line key line
                            then key ++ [AM] ++ join AM attrs ++ [LF]
                            else line) lines)
            = rewrite_lines key (key ++ [AM] ++ join AM attrs ++ [LF]) lines)
    as ->; [|done].
  intros lines. unfold rewrite_lines. f_equal. rewrite map_map.
  apply map_ext. intros line.
  destruct (key_line key line) eqn:Hline; [by rewrite Hul | by rewrite Hline].
Qed.

Lemma update_idempotent_witness :
  ∃ fs' r',
    update test_fs (found test_fs ("102" : str))
      [(1, Scalar (SStr ("Jane Doe" : str)))] = Ok (fs', r')
    ∧ update fs' r' [(1, Scalar (SStr ("Jane Doe" : str)))]
      = Ok ({| data_file := data_file fs'; bak_file := data_file fs' |}, r').
Proof.
  destruct (update test_fs (found test_fs ("102" : str))
              [(1, Scalar (SStr ("Jane Doe" : str)))]) as [[fs' r']|e] eqn:Hu;
    [|by vm_compute in Hu].
  exists fs', r'. split; [done|].
  apply (update_idempotent test_fs fs' ("102" : str)
           (found test_fs ("102" : str)) r');
    [by vm_compute | done | compute_done
    | unfold attribute_safe; compute_done | exact Hu].
Defined.
